(** * PyDance streaming core: a shallow embedding of [stream_core.cpp]

    The classes of [src/pydance/streaming/stream_core.cpp] are embedded one
    module per class, with the member names of the source.

    - [size_t], [uint32_t] and [int] values are integers of [Z]; the
      wrap-around of unsigned arithmetic is written out with [wrap64] and
      [wrap32].
    - [double] values are the binary64 floats of [PrimFloat], so every
      floating-point expression of the source is evaluated with the rounding
      the hardware performs.
    - A [std::vector] is a list; element access and in-place update are
      stdpp's list lookup and insert at the index converted to [nat].
    - Every member function of [ConcurrentRingBuffer] runs under the
      buffer's mutex, so an execution is a sequence of whole operations; the
      embedding is that sequence. *)

From Stdlib Require Import ZArith Lia Bool.
From Stdlib Require Import Init.Byte.
From Stdlib Require Import PrimFloat FloatOps SpecFloat.
From stdpp Require Import base list strings gmap.

Set Warnings "-inexact-float,-abstract-large-number,-clear-no-such-hyp".
Local Open Scope Z_scope.

(** ** Machine integers *)

Definition wrap64 (z : Z) : Z := z mod 2 ^ 64.
Definition wrap32 (z : Z) : Z := z mod 2 ^ 32.
Definition INT_MIN : Z := - 2 ^ 31.
Definition INT_MAX : Z := 2 ^ 31 - 1.
Definition SIZE_MAX : Z := 2 ^ 64 - 1.

(** ** Floating point

    [std::max(a, b)] is [(a < b) ? b : a] and [std::min(a, b)] is
    [(b < a) ? b : a]; with a NaN operand every comparison is false and the
    first argument is returned. *)

Definition std_max (a b : float) : float := if PrimFloat.ltb a b then b else a.
Definition std_min (a b : float) : float := if PrimFloat.ltb b a then b else a.

(** The mathematical truncation toward zero of a finite double; infinities
    and NaN have none. *)
Definition truncate (f : float) : option Z :=
  match Prim2SF f with
  | S754_zero _ => Some 0
  | S754_finite s m e =>
      let a := Z.shiftl (Z.pos m) e in Some (if s then - a else a)
  | S754_infinity _ => None
  | S754_nan => None
  end.

(** [static_cast<int>(f)] and [static_cast<size_t>(f)]: the truncated value
    when the destination type can represent it.  Otherwise C++ leaves the
    conversion undefined; [indefinite f] stands for whatever the target
    produces there, and nothing is assumed about it. *)
Definition static_cast_int (indefinite : float -> Z) (f : float) : Z :=
  match truncate f with
  | Some z => if (INT_MIN <=? z) && (z <=? INT_MAX) then z else indefinite f
  | None => indefinite f
  end.

Definition static_cast_size_t (indefinite : float -> Z) (f : float) : Z :=
  match truncate f with
  | Some z => if (0 <=? z) && (z <=? SIZE_MAX) then z else indefinite f
  | None => indefinite f
  end.

(** Whether the destination type can represent the truncated value. *)
Definition fits_int (f : float) : bool :=
  match truncate f with
  | Some z => (INT_MIN <=? z) && (z <=? INT_MAX)
  | None => false
  end.

Definition fits_size_t (f : float) : bool :=
  match truncate f with
  | Some z => (0 <=? z) && (z <=? SIZE_MAX)
  | None => false
  end.

(** The conversion instruction of x86-64 ([cvttsd2si]) yields the "integer
    indefinite" value [INT_MIN] for every unrepresentable operand. *)
Definition x86_64_int_indefinite (_ : float) : Z := INT_MIN.

(** ** ConcurrentRingBuffer *)

Module ConcurrentRingBuffer.

Record t (T : Type) : Type := mk {
  buffer_ : list T;
  head_ : Z;
  tail_ : Z;
  capacity_ : Z
}.
Arguments mk {T}.
Arguments buffer_ {T}.
Arguments head_ {T}.
Arguments tail_ {T}.
Arguments capacity_ {T}.

Section Ops.
Context {T : Type} `{!Inhabited T}.

(** The constructor: [capacity] value-initialised slots, both indices 0. *)
Definition make (capacity : Z) : t T :=
  mk (replicate (Z.to_nat capacity) inhabitant) 0 0 capacity.

Definition push (item : T) (rb : t T) : bool * t T :=
  let next_tail := wrap64 (tail_ rb + 1) mod capacity_ rb in
  if next_tail =? head_ rb then (false, rb)
  else (true, mk (<[Z.to_nat (tail_ rb) := item]> (buffer_ rb))
                 (head_ rb) next_tail (capacity_ rb)).

(** [pop(T& item)]: [None] is the [false] return, [Some x] the [true] return
    with [x] written to [item].  The slot moved from is not read again
    before a [push] overwrites it, so it is left as it was. *)
Definition pop (rb : t T) : option T * t T :=
  if head_ rb =? tail_ rb then (None, rb)
  else (Some (buffer_ rb !!! Z.to_nat (head_ rb)),
        mk (buffer_ rb) (wrap64 (head_ rb + 1) mod capacity_ rb)
           (tail_ rb) (capacity_ rb)).

Definition size (rb : t T) : Z :=
  wrap64 (wrap64 (tail_ rb - head_ rb) + capacity_ rb) mod capacity_ rb.

(** A sequence of operations on one buffer, with what each returned. *)
Inductive op : Type :=
  | Push (item : T)
  | Pop.

Inductive result : Type :=
  | Pushed (ok : bool)
  | Popped (item : option T).

Definition step (o : op) (rb : t T) : result * t T :=
  match o with
  | Push item => let (ok, rb') := push item rb in (Pushed ok, rb')
  | Pop => let (item, rb') := pop rb in (Popped item, rb')
  end.

Fixpoint run (ops : list op) (rb : t T) : list result * t T :=
  match ops with
  | [] => ([], rb)
  | o :: ops' =>
      let (r, rb') := step o rb in
      let (rs, rb'') := run ops' rb' in
      (r :: rs, rb'')
  end.

(** What the constructor establishes and every operation keeps.  The
    capacity is positive ([% capacity_] divides by it) and no more than the
    [2^63 - 1] elements a [std::vector] can hold. *)
Definition wf (rb : t T) : Prop :=
  0 < capacity_ rb < 2 ^ 63 /\
  0 <= head_ rb < capacity_ rb /\
  0 <= tail_ rb < capacity_ rb /\
  length (buffer_ rb) = Z.to_nat (capacity_ rb).

(** The items between [head_] and [tail_], oldest first. *)
Definition contents (rb : t T) : list T :=
  map (fun k : nat =>
         buffer_ rb !!! Z.to_nat ((head_ rb + Z.of_nat k) mod capacity_ rb))
      (seq 0 (Z.to_nat (size rb))).

End Ops.

(** A bounded first-in first-out queue holding at most [bound] items: what
    the words "FIFO order preserved" describe. *)
Section Fifo.
Context {T : Type}.

Definition fifo_step (bound : Z) (o : op (T:=T)) (q : list T)
  : result (T:=T) * list T :=
  match o with
  | Push item =>
      if Z.of_nat (length q) <? bound then (Pushed true, q ++ [item])
      else (Pushed false, q)
  | Pop =>
      match q with
      | [] => (Popped None, [])
      | x :: q' => (Popped (Some x), q')
      end
  end.

Fixpoint fifo_run (bound : Z) (ops : list (op (T:=T))) (q : list T)
  : list (result (T:=T)) * list T :=
  match ops with
  | [] => ([], q)
  | o :: ops' =>
      let (r, q') := fifo_step bound o q in
      let (rs, q'') := fifo_run bound ops' q' in
      (r :: rs, q'')
  end.

End Fifo.

End ConcurrentRingBuffer.

(** ** NetworkAwareScheduler *)

Module NetworkAwareScheduler.

Record NetworkMetrics : Type := mkMetrics {
  bandwidth : float;   (* Mbps *)
  latency : float;     (* ms *)
  packet_loss : float; (* percentage *)
  jitter : float;      (* ms *)
  timestamp : Z
}.

(** A value-initialised [NetworkMetrics], as the slots of a fresh buffer. *)
#[global] Instance NetworkMetrics_inhabited : Inhabited NetworkMetrics :=
  populate (mkMetrics 0 0 0 0 0).

Record t : Type := mk {
  metrics_buffer_ : ConcurrentRingBuffer.t NetworkMetrics;
  smoothed_bandwidth_ : float;
  smoothed_latency_ : float
}.

(** The default member initialisers. *)
Definition make : t :=
  mk (ConcurrentRingBuffer.make 100) 0%float 0%float.

Definition update_metrics (metrics : NetworkMetrics) (s : t) : t :=
  let alpha := 0.2%float in
  let current_bw := smoothed_bandwidth_ s in
  let new_bw := (alpha * bandwidth metrics + (1 - alpha) * current_bw)%float in
  let current_lat := smoothed_latency_ s in
  let new_lat := (alpha * latency metrics + (1 - alpha) * current_lat)%float in
  mk (metrics_buffer_ s) new_bw new_lat.

Definition calculate_optimal_bitrate (indefinite : float -> Z) (s : t) : Z :=
  let available_bw := smoothed_bandwidth_ s in
  let current_latency := smoothed_latency_ s in
  let safety_factor := std_max 0.7 (1.0 - current_latency / 100.0)%float in
  let optimal_bitrate :=
    static_cast_int indefinite
      (available_bw * 1000 * safety_factor * 0.8)%float in
  Z.max 300 (Z.min optimal_bitrate 20000).

(** The result of [push] is discarded by the source. *)
Definition add_metrics_sample (metrics : NetworkMetrics) (s : t) : t :=
  let (_, buf) := ConcurrentRingBuffer.push metrics (metrics_buffer_ s) in
  update_metrics metrics (mk buf (smoothed_bandwidth_ s) (smoothed_latency_ s)).

Definition smoothed_latency (s : t) : float := smoothed_latency_ s.
Definition smoothed_bandwidth (s : t) : float := smoothed_bandwidth_ s.

(** The scheduler after a sequence of samples, first sample first. *)
Definition record_all (samples : list NetworkMetrics) (s : t) : t :=
  foldl (fun acc m => add_metrics_sample m acc) s samples.

(** The words of the specification: [safety = max(0.7, 1 - latency/100)],
    [bitrate = bandwidth_kbps * safety * 0.8], clamped to [300, 20000]; the
    [int] result is the truncation of the product.  [None] where the product
    is not a number. *)
Definition bitrate_product (s : t) : float :=
  let bandwidth_kbps := (smoothed_bandwidth_ s * 1000)%float in
  let safety := std_max 0.7 (1 - smoothed_latency_ s / 100)%float in
  (bandwidth_kbps * safety * 0.8)%float.

Definition bitrate_spec (s : t) : option Z :=
  match truncate (bitrate_product s) with
  | Some z => Some (Z.max 300 (Z.min z 20000))
  | None => None
  end.

End NetworkAwareScheduler.

(** ** ChunkQuadTree *)

Module ChunkQuadTree.

Record Node : Type := mkNode {
  chunk_id : Z;
  timestamp : Z;
  size : Z;
  children : list Z;
  is_leaf : bool
}.

Record t : Type := mk {
  nodes_ : list Node;
  root_id_ : Z
}.

(** The constructor pushes the root node. *)
Definition make : t := mk [mkNode 0 0 0 [] false] 0.

Definition insert_chunk (chunk_id ts size : Z) (dependencies : list Z)
    (tree : t) : t :=
  mk (nodes_ tree ++
        [mkNode chunk_id ts size dependencies
                (match dependencies with [] => true | _ => false end)])
     (root_id_ tree).

(** What a traversal ends in: a value, an index outside [nodes_] (undefined
    in the source), or an exhausted recursion budget. *)
Inductive outcome (A : Type) : Type :=
  | Done (a : A)
  | OutOfRange
  | OutOfFuel.
Arguments Done {A}.
Arguments OutOfRange {A}.
Arguments OutOfFuel {A}.

(** The range-for loop [for (uint32_t dep : children) dfs(dep);], stopping
    at the first call that does not return. *)
Fixpoint for_each {A : Type} (body : Z -> A -> outcome A) (deps : list Z)
    (st : A) : outcome A :=
  match deps with
  | [] => Done st
  | dep :: deps' =>
      match body dep st with
      | Done st' => for_each body deps' st'
      | OutOfRange => OutOfRange
      | OutOfFuel => OutOfFuel
      end
  end.

(** The recursive lambda [dfs]; the captured [visited] and [sequence] are
    threaded through.  [fuel] bounds the recursion depth. *)
Fixpoint dfs (fuel : nat) (nodes : list Node) (node_id : Z)
    (st : list bool * list Z) : outcome (list bool * list Z) :=
  match fuel with
  | O => OutOfFuel
  | S fuel' =>
      match fst st !! Z.to_nat node_id with
      | None => OutOfRange
      | Some true => Done st
      | Some false =>
          match nodes !! Z.to_nat node_id with
          | None => OutOfRange
          | Some n =>
              match for_each (dfs fuel' nodes) (children n)
                      (<[Z.to_nat node_id := true]> (fst st), snd st) with
              | Done (visited, sequence) =>
                  Done (visited,
                        if is_leaf n then sequence ++ [chunk_id n]
                        else sequence)
              | OutOfRange => OutOfRange
              | OutOfFuel => OutOfFuel
              end
          end
      end
  end.

(** The number of nodes not yet visited. *)
Fixpoint unvisited (visited : list bool) : nat :=
  match visited with
  | [] => 0
  | b :: visited' => (if b then 0 else 1) + unvisited visited'
  end.

(** Each nested call marks a node not yet visited, so the depth never
    exceeds the number of nodes plus one. *)
Definition get_optimal_chunk_sequence (target_bitrate : Z) (tree : t)
  : outcome (list Z) :=
  let visited := replicate (length (nodes_ tree)) false in
  match dfs (S (length (nodes_ tree))) (nodes_ tree) (root_id_ tree)
            (visited, []) with
  | Done (_, sequence) => Done sequence
  | OutOfRange => OutOfRange
  | OutOfFuel => OutOfFuel
  end.

(** One [insert_chunk] call: chunk id, timestamp, size, dependencies. *)
Definition insertion : Type := Z * Z * Z * list Z.

Definition insert_all (ins : list insertion) (tree : t) : t :=
  foldl (fun acc '(c, ts, sz, deps) => insert_chunk c ts sz deps acc) tree ins.

(** The node one [insert_chunk] call pushes. *)
Definition node_of_insertion (i : insertion) : Node :=
  let '(c, ts, sz, deps) := i in
  mkNode c ts sz deps (match deps with [] => true | _ => false end).

End ChunkQuadTree.

(** ** QuantumStreamProtocol *)

Module QuantumStreamProtocol.

Record QuantumPacket : Type := mkPacket {
  stream_id : Z;
  chunk_id : Z;
  sequence_number : Z;
  timestamp : Z;
  data : list byte;
  priority : Z
}.

Record t : Type := mk {
  chunk_tree_ : ChunkQuadTree.t;
  scheduler_ : NetworkAwareScheduler.t
}.

Definition make : t := mk ChunkQuadTree.make NetworkAwareScheduler.make.

Definition calculate_optimal_chunk_size (indefinite : float -> Z) (p : t) : Z :=
  let latency := NetworkAwareScheduler.smoothed_latency (scheduler_ p) in
  let bandwidth := NetworkAwareScheduler.smoothed_bandwidth (scheduler_ p) in
  let optimal_size_ms := std_max 100.0 (std_min 2000.0 (latency * 2)%float) in
  let chunk_size :=
    static_cast_size_t indefinite
      ((bandwidth * 1000 * optimal_size_ms) / 8000)%float in
  Z.max 1024 (Z.min chunk_size 65536).

Definition calculate_chunk_priority (position total_size : Z) : Z :=
  if position mod 100 =? 0 then 255
  else if position mod 10 =? 0 then 200
  else 100.

Section Packets.
(** [get_current_timestamp()] reads the system clock; [clock k] is the value
    read while the packet with sequence number [k] is built. *)
Variable clock : nat -> Z.

(** The [for] loop of [generate_packets] from offset [i] on. *)
Fixpoint generate_packets_from (fuel : nat) (chunk_size : Z)
    (media_data : list byte) (stream_id : Z) (i : Z)
    (packets : list QuantumPacket) : option (list QuantumPacket) :=
  match fuel with
  | O => None
  | S fuel' =>
      let total := Z.of_nat (length media_data) in
      if i <? total then
        let end_ := Z.min (wrap64 (i + chunk_size)) total in
        let chunk_data :=
          take (Z.to_nat (end_ - i)) (drop (Z.to_nat i) media_data) in
        let packet :=
          mkPacket stream_id
                   (wrap32 (i / chunk_size))
                   (wrap32 (Z.of_nat (length packets)))
                   (clock (length packets))
                   chunk_data
                   (calculate_chunk_priority i total) in
        generate_packets_from fuel' chunk_size media_data stream_id
                              (wrap64 (i + chunk_size)) (packets ++ [packet])
      else Some packets
  end.

(** The chunk size is at least 1024, so the loop runs at most once per
    payload byte; [None] would be a loop that has not finished by then. *)
Definition generate_packets (indefinite : float -> Z) (p : t)
    (media_data : list byte) (stream_id : Z) : option (list QuantumPacket) :=
  let chunk_size := calculate_optimal_chunk_size indefinite p in
  generate_packets_from (S (length media_data)) chunk_size media_data
                        stream_id 0 [].

(** The packets the loop builds from offset [i] on, [k] packets having been
    built before: one per [chunk_size] bytes until the payload ends. *)
Inductive chunked (chunk_size : Z) (media_data : list byte) (stream_id : Z)
  : Z -> nat -> list QuantumPacket -> Prop :=
  | chunked_end i k :
      Z.of_nat (length media_data) <= i ->
      chunked chunk_size media_data stream_id i k []
  | chunked_cons i k rest :
      i < Z.of_nat (length media_data) ->
      chunked chunk_size media_data stream_id (i + chunk_size) (S k) rest ->
      chunked chunk_size media_data stream_id i k
        (mkPacket stream_id
                  (wrap32 (i / chunk_size))
                  (wrap32 (Z.of_nat k))
                  (clock k)
                  (take (Z.to_nat chunk_size) (drop (Z.to_nat i) media_data))
                  (calculate_chunk_priority i (Z.of_nat (length media_data)))
         :: rest).

End Packets.

(** The words of the specification:
    [chunk_duration_ms = clamp(latency*2, 100, 2000)] and
    [chunk_bytes = clamp(bandwidth_kbps * chunk_duration_ms / divisor, 1024,
    65536)] with [bandwidth_kbps] the smoothed bandwidth times 1000; the
    specification's divisor is 8.  [None] where the quotient is not a
    number. *)
Definition chunk_duration_ms (p : t) : float :=
  std_max 100
    (std_min 2000
       (NetworkAwareScheduler.smoothed_latency_ (scheduler_ p) * 2)%float).

Definition chunk_quotient (divisor : float) (p : t) : float :=
  let bandwidth_kbps :=
    (NetworkAwareScheduler.smoothed_bandwidth_ (scheduler_ p) * 1000)%float in
  (bandwidth_kbps * chunk_duration_ms p / divisor)%float.

Definition chunk_bytes_formula (divisor : float) (p : t) : option Z :=
  match truncate (chunk_quotient divisor p) with
  | Some z => Some (Z.max 1024 (Z.min z 65536))
  | None => None
  end.

Definition chunk_bytes_spec (p : t) : option Z := chunk_bytes_formula 8 p.


End QuantumStreamProtocol.

(** ** LockFreeMPSCQueue

    The linked list between [head_] and [tail_], as the list of the tasks it
    holds, oldest first; the dummy head node carries no task. *)

Module LockFreeMPSCQueue.

Section Queue.
Context {Task : Type}.

Definition t : Type := list Task.

Definition make : t := [].

Definition push (task : Task) (q : t) : t := q ++ [task].

(** [None] is the [nullptr] return. *)
Definition pop (q : t) : option Task * t :=
  match q with
  | [] => (None, [])
  | task :: q' => (Some task, q')
  end.

Definition size_approx (q : t) : Z := 0.

(** A sequence of calls on one queue, with what each [pop] returned. *)
Inductive op : Type :=
  | Push (task : Task)
  | Pop.

Fixpoint run (ops : list op) (q : t) : list (option Task) * t :=
  match ops with
  | [] => ([], q)
  | Push task :: ops' => run ops' (push task q)
  | Pop :: ops' =>
      let (r, q') := pop q in
      let (rs, q'') := run ops' q' in
      (r :: rs, q'')
  end.

End Queue.

Arguments t : clear implicits.
Arguments op : clear implicits.

End LockFreeMPSCQueue.

(** ** LockFreeMPSCQueue, node by node

    The same class with its [Node] objects and pointers: the heap maps the
    address of every node allocated and not yet deleted to its contents,
    [nullptr] is [None], and [new] returns an address not in use.  Each
    member function is taken as a whole, without interleaving. *)

Module LockFreeMPSCQueueNodes.

Section Nodes.
Context {Task : Type}.

Record Node : Type := mkNode {
  next : option positive;
  task : option Task
}.

Record t : Type := mk {
  heap : gmap positive Node;
  head_ : positive;
  tail_ : positive
}.

Definition alloc (h : gmap positive Node) : positive := fresh (dom h).

(** The constructor: one node without task, both pointers on it. *)
Definition make : t :=
  let node := alloc ∅ in
  mk {[ node := mkNode None None ]} node node.

Definition push (pushed : Task) (q : t) : t :=
  let new_node := alloc (heap q) in
  let heap1 := <[ new_node := mkNode None (Some pushed) ]> (heap q) in
  let old_tail := tail_ q in
  mk (alter (fun n => mkNode (Some new_node) (task n)) old_tail heap1)
     (head_ q) new_node.

(** [std::move(next_head->task)] leaves the node, now the head, without
    task; [delete old_head] removes the old head from the heap. *)
Definition pop (q : t) : option Task * t :=
  let old_head := head_ q in
  match heap q !! old_head with
  | None => (None, q)
  | Some head_node =>
      match next head_node with
      | Some next_head =>
          (heap q !! next_head ≫= task,
           mk (delete old_head
                 (alter (fun n => mkNode (next n) None) next_head (heap q)))
              next_head (tail_ q))
      | None => (None, q)
      end
  end.

Fixpoint run (ops : list (LockFreeMPSCQueue.op Task)) (q : t)
  : list (option Task) * t :=
  match ops with
  | [] => ([], q)
  | LockFreeMPSCQueue.Push pushed :: ops' => run ops' (push pushed q)
  | LockFreeMPSCQueue.Pop :: ops' =>
      let (r, q') := pop q in
      let (rs, q'') := run ops' q' in
      (r :: rs, q'')
  end.

(** The nodes after [l], with the tasks they hold, up to the last node. *)
Fixpoint linked (h : gmap positive Node) (l : positive)
    (cells : list (positive * Task)) (last : positive) : Prop :=
  match cells with
  | [] => l = last /\ exists n, h !! l = Some n /\ next n = None
  | (l', t) :: cells' =>
      (exists n, h !! l = Some n /\ next n = Some l') /\
      (exists n', h !! l' = Some n' /\ task n' = Some t) /\
      linked h l' cells' last
  end.

(** The queue holds the tasks [ts], oldest first: its heap is a chain of
    distinct nodes from [head_] to [tail_] and nothing else. *)
Definition holds (q : t) (ts : list Task) : Prop :=
  exists cells : list (positive * Task),
    map snd cells = ts /\
    NoDup (head_ q :: map fst cells) /\
    linked (heap q) (head_ q) cells (tail_ q) /\
    dom (heap q) = list_to_set (head_ q :: map fst cells).

End Nodes.

Arguments Node : clear implicits.
Arguments t : clear implicits.

End LockFreeMPSCQueueNodes.

(** ** QuantumIOCore *)

Module QuantumIOCore.

Record t (Task : Type) : Type := mk {
  NUM_IO_THREADS : Z;
  task_queues_ : list (LockFreeMPSCQueue.t Task);
  running_ : bool
}.
Arguments mk {Task}.
Arguments NUM_IO_THREADS {Task}.
Arguments task_queues_ {Task}.
Arguments running_ {Task}.

Section Core.
Context {Task : Type}.
(** The thread-local generator state and one draw of
    [uniform_int_distribution<size_t>(0, NUM_IO_THREADS - 1)] from it. *)
Context {Gen : Type} (dist : Gen -> Z * Gen).

#[local] Instance queue_inhabited : Inhabited (LockFreeMPSCQueue.t Task) :=
  populate LockFreeMPSCQueue.make.

(** The constructor: one empty queue per thread, [running_] set. *)
Definition make (num_threads : Z) : t Task :=
  mk num_threads
     (replicate (Z.to_nat num_threads) LockFreeMPSCQueue.make)
     true.

(** The destructor clears [running_] and joins the workers. *)
Definition shutdown (core : t Task) : t Task :=
  mk (NUM_IO_THREADS core) (task_queues_ core) false.

Definition get_optimal_queue (core : t Task) (gen : Gen) : Z * Gen :=
  let (q1, gen1) := dist gen in
  let (q2, gen2) := dist gen1 in
  (if LockFreeMPSCQueue.size_approx (task_queues_ core !!! Z.to_nat q1)
      <? LockFreeMPSCQueue.size_approx (task_queues_ core !!! Z.to_nat q2)
   then q1 else q2,
   gen2).

(** [submit] returns [void]: all it yields is the new state.  [dist] draws
    within the vector; an index outside it, undefined in the source, leaves
    the queues as they are. *)
Definition submit (func : Task) (core : t Task) (gen : Gen) : t Task * Gen :=
  let (queue_idx, gen') := get_optimal_queue core gen in
  (mk (NUM_IO_THREADS core)
      (alter (LockFreeMPSCQueue.push func) (Z.to_nat queue_idx)
             (task_queues_ core))
      (running_ core),
   gen').

(** [io_worker]: each pass of the [while] loop tests [running_], pops the
    worker's queue and runs the task if there is one.  The result is the
    tasks run, in order, and the state after [passes] passes (fewer if the
    loop has ended). *)
Fixpoint io_worker (passes : nat) (queue_idx : Z) (core : t Task)
  : list Task * t Task :=
  match passes with
  | O => ([], core)
  | S passes' =>
      if running_ core then
        let (task, q') :=
          LockFreeMPSCQueue.pop (task_queues_ core !!! Z.to_nat queue_idx) in
        let core' :=
          mk (NUM_IO_THREADS core)
             (<[Z.to_nat queue_idx := q']> (task_queues_ core))
             (running_ core) in
        let (ran, core'') := io_worker passes' queue_idx core' in
        (match task with Some f => f :: ran | None => ran end, core'')
      else ([], core)
  end.

End Core.

End QuantumIOCore.

(** ** ProcessingPipeline *)

Module ProcessingPipeline.

Record Stage : Type := mkStage {
  processor : list byte -> list byte;
  buffer : ConcurrentRingBuffer.t (list byte)
}.

Record t : Type := mk { stages_ : list Stage }.

Definition make : t := mk [].

Definition add_stage (buffer_size : Z) (processor : list byte -> list byte)
    (p : t) : t :=
  mk (stages_ p ++ [mkStage processor (ConcurrentRingBuffer.make buffer_size)]).

(** [process] returns [void] and discards what [push] returned: all it
    yields is the new state. *)
Definition process (data : list byte) (p : t) : t :=
  match stages_ p with
  | [] => p
  | stage0 :: rest =>
      let (_, buf) := ConcurrentRingBuffer.push data (buffer stage0) in
      mk (mkStage (processor stage0) buf :: rest)
  end.

(** [setup_video_pipeline]: the three stage bodies of the source are empty,
    so each processor leaves the frame as it is. *)
Definition setup_video_pipeline (p : t) : t :=
  add_stage 2 (fun frame => frame)
    (add_stage 3 (fun frame => frame)
       (add_stage 5 (fun frame => frame) p)).

Definition setup_audio_pipeline (p : t) : t :=
  add_stage 4 (fun audio => audio)
    (add_stage 8 (fun audio => audio) p).

End ProcessingPipeline.

(** ** QuantumMediaEngine *)

Module QuantumMediaEngine.

(** The two closures the engine submits: each captures the frame and, when
    run, hands it to its pipeline. *)
Inductive Task : Type :=
  | VideoFrame (data : list byte)
  | AudioFrame (data : list byte).

Record t : Type := mk {
  io_core_ : QuantumIOCore.t Task;
  scheduler_ : NetworkAwareScheduler.t;
  video_pipeline_ : ProcessingPipeline.t;
  audio_pipeline_ : ProcessingPipeline.t
}.

(** The constructor sets both pipelines up; the worker count is that of the
    core's constructor. *)
Definition make (num_threads : Z) : t :=
  mk (QuantumIOCore.make num_threads)
     NetworkAwareScheduler.make
     (ProcessingPipeline.setup_video_pipeline ProcessingPipeline.make)
     (ProcessingPipeline.setup_audio_pipeline ProcessingPipeline.make).

Section Engine.
Context {Gen : Type} (dist : Gen -> Z * Gen).

Definition process_video_frame (frame_data : list byte) (e : t) (gen : Gen)
  : t * Gen :=
  let (core, gen') :=
    QuantumIOCore.submit dist (VideoFrame frame_data) (io_core_ e) gen in
  (mk core (scheduler_ e) (video_pipeline_ e) (audio_pipeline_ e), gen').

Definition process_audio_frame (audio_data : list byte) (e : t) (gen : Gen)
  : t * Gen :=
  let (core, gen') :=
    QuantumIOCore.submit dist (AudioFrame audio_data) (io_core_ e) gen in
  (mk core (scheduler_ e) (video_pipeline_ e) (audio_pipeline_ e), gen').

End Engine.

(** Running a closure: the body of the lambda. *)
Definition run_task (task : Task) (e : t) : t :=
  match task with
  | VideoFrame data =>
      mk (io_core_ e) (scheduler_ e)
         (ProcessingPipeline.process data (video_pipeline_ e))
         (audio_pipeline_ e)
  | AudioFrame data =>
      mk (io_core_ e) (scheduler_ e) (video_pipeline_ e)
         (ProcessingPipeline.process data (audio_pipeline_ e))
  end.

(** A worker of the engine's core: the closures it pops are run on the
    engine.  No closure touches the core, so popping first and running
    afterwards yields the state the interleaved loop yields. *)
Definition io_worker (passes : nat) (queue_idx : Z) (e : t) : t :=
  let (ran, core) := QuantumIOCore.io_worker passes queue_idx (io_core_ e) in
  foldl (fun acc task => run_task task acc)
        (mk core (scheduler_ e) (video_pipeline_ e) (audio_pipeline_ e)) ran.

End QuantumMediaEngine.

(** ** QuantumEdgeManager *)

Module QuantumEdgeManager.

Record EdgeNode : Type := mkEdgeNode {
  id : string;
  address : string;
  latency : float;
  capacity : float;
  current_load : float;
  supported_codecs : list string
}.

Record t : Type := mk { nodes_ : gmap string EdgeNode }.

Definition make : t := mk ∅.

(** [emplace] inserts only when the key is absent. *)
Definition add_node (node : EdgeNode) (m : t) : t :=
  match nodes_ m !! id node with
  | Some _ => m
  | None => mk (<[id node := node]> (nodes_ m))
  end.

(** [find] and, when the node is there, two assignments. *)
Definition update_node_metrics (node_id : string)
    (current_load current_latency : float) (m : t) : t :=
  mk (alter (fun n => mkEdgeNode (id n) (address n) current_latency
                                 (capacity n) current_load
                                 (supported_codecs n))
            node_id (nodes_ m)).

(** [ip.find(s) == 0]: [String.index 0 s ip] is the first position of [s] in
    [ip], [None] for [npos]. *)
Definition geolocate_ip (ip : string) : string :=
  if bool_decide (String.index 0 "192.168." ip = Some 0%nat)
     || bool_decide (String.index 0 "10." ip = Some 0%nat)
  then "local" else "us-east".

Section Select.
(** The order in which a range-for visits the [unordered_map], which C++
    leaves open, and the generator with one draw of
    [uniform_real_distribution<>(0, total_score)]. *)
Variable iteration : gmap string EdgeNode -> list (string * EdgeNode).
Context {Gen : Type} (uniform_real : float -> Gen -> float * Gen).

(** The first loop: the nodes with spare capacity above the requirement,
    each with its score. *)
Definition candidates (required_bandwidth : float) (m : t)
  : list (string * float) :=
  foldl (fun acc '(node_id, node) =>
           if PrimFloat.ltb required_bandwidth
                (capacity node - current_load node)%float
           then acc ++ [(node_id,
                         (1.0 / (latency node + 1)
                          * (capacity node - current_load node))%float)]
           else acc)
        [] (iteration (nodes_ m)).

(** The third loop: the first candidate at which the running sum reaches
    the random value. *)
Fixpoint pick (random_value cumulative : float)
    (cands : list (string * float)) : option string :=
  match cands with
  | [] => None
  | (node_id, score) :: cands' =>
      let cumulative' := (cumulative + score)%float in
      if PrimFloat.leb random_value cumulative' then Some node_id
      else pick random_value cumulative' cands'
  end.

Definition select_optimal_node (client_region : string)
    (required_bandwidth : float) (m : t) (gen : Gen) : string * Gen :=
  let cands := candidates required_bandwidth m in
  match cands with
  | [] => (EmptyString, gen)
  | _ :: _ =>
      let total_score :=
        foldl (fun acc c => (acc + c.2)%float) 0%float cands in
      let (random_value, gen') := uniform_real total_score gen in
      (match pick random_value 0 cands with
       | Some node_id => node_id
       | None => match last cands with
                 | Some c => c.1
                 | None => EmptyString
                 end
       end,
       gen')
  end.

Definition route_stream (client_ip : string) (required_bandwidth : float)
    (required_codecs : list string) (m : t) (gen : Gen) : string * Gen :=
  let region := geolocate_ip client_ip in
  select_optimal_node region required_bandwidth m gen.

End Select.

End QuantumEdgeManager.

(** ** QuantumStreamServer::ConnectionPool *)

Module ConnectionPool.

Record Connection : Type := mkConnection {
  fd : Z;
  client_id : string;
  active : bool;
  last_activity : Z
}.

Record t : Type := mk { connections_ : gmap Z Connection }.

Definition make : t := mk ∅.

(** [now] is what [get_timestamp()] reads.  [emplace] inserts only when the
    descriptor is absent. *)
Definition add_connection (now : Z) (fd : Z) (client_id : string) (p : t) : t :=
  match connections_ p !! fd with
  | Some _ => p
  | None => mk (<[fd := mkConnection fd client_id true now]> (connections_ p))
  end.

Definition remove_connection (fd : Z) (p : t) : t :=
  mk (delete fd (connections_ p)).

Definition update_activity (now : Z) (fd : Z) (p : t) : t :=
  mk (alter (fun c => mkConnection (ConnectionPool.fd c) (client_id c)
                                   (active c) now)
            fd (connections_ p)).

End ConnectionPool.

(** ** QuantumStreamServer: the handlers of connection events *)

Module QuantumStreamServer.

(** The flags of [<sys/epoll.h>] and the error number of [<errno.h>] on
    Linux, where [EWOULDBLOCK] is [EAGAIN]. *)
Definition EPOLLIN : Z := 1.
Definition EPOLLOUT : Z := 4.
Definition EPOLLERR : Z := 8.
Definition EPOLLHUP : Z := 16.
Definition EAGAIN : Z := 11.
Definition EWOULDBLOCK : Z := 11.

(** What the handlers do to the outside: system calls and console lines. *)
Inductive event : Type :=
  | EpollCtlDel (fd : Z)
  | Close (fd : Z)
  | Cerr (message : string) (fd : Z)
  | Cout (message : string) (fd : Z).

(** The closure [process_received_data] submits; it captures the frame. *)
Inductive Task : Type :=
  | ProcessVideoFrame (frame_data : list byte).

(** What [read(fd, buffer, 4096)] returned: the count, the buffer and
    [errno]. *)
Record ReadResult : Type := mkRead {
  bytes_read : Z;
  buffer : list byte;
  errno : Z
}.

Record t (Gen : Type) : Type := mk {
  io_core_ : QuantumIOCore.t Task;
  connection_pool_ : ConnectionPool.t;
  gen_ : Gen;
  events_ : list event
}.
Arguments mk {Gen}.
Arguments io_core_ {Gen}.
Arguments connection_pool_ {Gen}.
Arguments gen_ {Gen}.
Arguments events_ {Gen}.

Section Handlers.
Context {Gen : Type} (dist : Gen -> Z * Gen).

Definition emit (e : event) (s : t Gen) : t Gen :=
  mk (io_core_ s) (connection_pool_ s) (gen_ s) (events_ s ++ [e]).

Definition cleanup_connection (fd : Z) (s : t Gen) : t Gen :=
  let s1 := emit (EpollCtlDel fd) s in
  let s2 := mk (io_core_ s1)
               (ConnectionPool.remove_connection fd (connection_pool_ s1))
               (gen_ s1) (events_ s1) in
  emit (Close fd) s2.

Definition handle_connection_error (fd : Z) (s : t Gen) : t Gen :=
  cleanup_connection fd (emit (Cerr "Connection error on fd " fd) s).

Definition handle_connection_close (fd : Z) (s : t Gen) : t Gen :=
  cleanup_connection fd (emit (Cout "Connection closed on fd " fd) s).

Definition process_received_data (fd : Z) (data : list byte) (size : Z)
    (s : t Gen) : t Gen :=
  let frame_data := take (Z.to_nat size) data in
  let (core, gen') :=
    QuantumIOCore.submit dist (ProcessVideoFrame frame_data)
                         (io_core_ s) (gen_ s) in
  mk core (connection_pool_ s) gen' (events_ s).

Definition handle_read_event (fd : Z) (r : ReadResult) (s : t Gen) : t Gen :=
  if 0 <? bytes_read r then
    process_received_data fd (buffer r) (bytes_read r) s
  else if bytes_read r =? 0 then
    handle_connection_close fd s
  else if negb (errno r =? EAGAIN) && negb (errno r =? EWOULDBLOCK) then
    handle_connection_error fd s
  else s.

Definition handle_write_event (fd : Z) (s : t Gen) : t Gen := s.

(** [now] is the clock read by [update_activity]; [r] is what the [read] of
    [handle_read_event] returns, if that handler runs. *)
Definition handle_connection_activity (now : Z) (r : ReadResult)
    (fd : Z) (events : Z) (s : t Gen) : t Gen :=
  let s0 := mk (io_core_ s)
               (ConnectionPool.update_activity now fd (connection_pool_ s))
               (gen_ s) (events_ s) in
  let s1 := if negb (Z.land events EPOLLIN =? 0)
            then handle_read_event fd r s0 else s0 in
  let s2 := if negb (Z.land events EPOLLOUT =? 0)
            then handle_write_event fd s1 else s1 in
  if negb (Z.land events (Z.lor EPOLLERR EPOLLHUP) =? 0)
  then handle_connection_error fd s2 else s2.

End Handlers.

End QuantumStreamServer.

(** * Properties *)

(** ** Modular arithmetic of the indices *)

Lemma mod_shift (x m k : Z) : 0 <= x - k * m < m -> x mod m = x - k * m.
Proof.
  intros H. symmetry. apply (Z.mod_unique x m k); [left; lia | lia].
Qed.

Lemma wrap64_small (x : Z) : 0 <= x < 2 ^ 64 -> wrap64 x = x.
Proof. intros H. unfold wrap64. now apply Z.mod_small. Qed.

Lemma next_index (i c : Z) :
  0 <= i < c -> c < 2 ^ 63 ->
  wrap64 (i + 1) mod c = if i + 1 =? c then 0 else i + 1.
Proof.
  intros Hi Hc. rewrite wrap64_small by lia.
  destruct (Z.eqb_spec (i + 1) c) as [->|Hne].
  - apply Z_mod_same_full.
  - apply Z.mod_small. lia.
Qed.

Lemma offset_index (h k c : Z) :
  0 <= h < c -> 0 <= k < c ->
  (h + k) mod c = if h + k <? c then h + k else h + k - c.
Proof.
  intros Hh Hk. destruct (Z.ltb_spec (h + k) c).
  - apply Z.mod_small. lia.
  - rewrite (mod_shift _ _ 1); lia.
Qed.

Ltac split_eqb :=
  repeat match goal with
         | |- context [?a =? ?b] => destruct (Z.eqb_spec a b)
         | |- context [?a <=? ?b] => destruct (Z.leb_spec a b)
         | |- context [?a <? ?b] => destruct (Z.ltb_spec a b)
         | H : context [?a =? ?b] |- _ => destruct (Z.eqb_spec a b)
         end.

Section RingBufferFacts.
Import ConcurrentRingBuffer.
Context {T : Type} `{!Inhabited T}.
Implicit Types rb : t T.

Lemma size_cases rb :
  wf rb ->
  size rb = if head_ rb <=? tail_ rb then tail_ rb - head_ rb
            else tail_ rb - head_ rb + capacity_ rb.
Proof.
  intros (Hc & Hh & Ht & _). unfold size.
  destruct (Z.leb_spec (head_ rb) (tail_ rb)) as [Hle|Hlt].
  - rewrite (wrap64_small (tail_ rb - head_ rb)) by lia.
    rewrite wrap64_small by lia.
    rewrite (mod_shift _ _ 1); lia.
  - replace (wrap64 (tail_ rb - head_ rb))
      with (tail_ rb - head_ rb + 2 ^ 64)
      by (unfold wrap64; rewrite (mod_shift _ (2 ^ 64) (-1)); lia).
    replace (wrap64 (tail_ rb - head_ rb + 2 ^ 64 + capacity_ rb))
      with (tail_ rb - head_ rb + capacity_ rb)
      by (unfold wrap64; rewrite (mod_shift _ (2 ^ 64) 1); lia).
    apply Z.mod_small; lia.
Qed.

Lemma size_range rb : wf rb -> 0 <= size rb <= capacity_ rb - 1.
Proof.
  intros Hwf. rewrite size_cases by done. destruct Hwf as (Hc & Hh & Ht & _).
  split_eqb; lia.
Qed.

Lemma wf_make (capacity : Z) : 0 < capacity < 2 ^ 63 -> wf (make (T:=T) capacity).
Proof.
  intros Hc. unfold wf, make; simpl. rewrite length_replicate. lia.
Qed.

Lemma push_fails_iff item rb :
  wf rb -> (push item rb).1 = false <-> size rb = capacity_ rb - 1.
Proof.
  intros Hwf. rewrite size_cases by done. destruct Hwf as (Hc & Hh & Ht & _).
  unfold push. rewrite next_index by lia.
  split_eqb; simpl; split; intros; try done; lia.
Qed.

Lemma wf_push item rb : wf rb -> wf (push item rb).2.
Proof.
  intros (Hc & Hh & Ht & Hl). unfold push. rewrite next_index by lia.
  split_eqb; unfold wf; simpl; rewrite ?length_insert; lia.
Qed.

Lemma wf_pop rb : wf rb -> wf (pop rb).2.
Proof.
  intros (Hc & Hh & Ht & Hl). unfold pop.
  destruct (Z.eqb_spec (head_ rb) (tail_ rb)) as [E|E]; simpl.
  - unfold wf; lia.
  - unfold wf; simpl. rewrite next_index by lia. split_eqb; lia.
Qed.

Lemma capacity_push item rb : capacity_ (push item rb).2 = capacity_ rb.
Proof. unfold push. by destruct (_ =? _). Qed.

Lemma capacity_step o rb : capacity_ (step o rb).2 = capacity_ rb.
Proof.
  destruct o as [item|]; unfold step, push, pop.
  - by destruct (_ =? _).
  - by destruct (_ =? _).
Qed.

Lemma wf_step o rb : wf rb -> wf (step o rb).2.
Proof.
  intros Hwf. destruct o as [item|]; simpl.
  - pose proof (wf_push item rb Hwf). destruct (push item rb); done.
  - pose proof (wf_pop rb Hwf). destruct (pop rb); done.
Qed.

Lemma wf_run ops rb : wf rb -> wf (run ops rb).2.
Proof.
  revert rb. induction ops as [|o ops IH]; intros rb Hwf; simpl; [done|].
  pose proof (wf_step o rb Hwf) as Hs. destruct (step o rb) as [r rb'].
  specialize (IH rb' Hs). destruct (run ops rb') as [rs rb'']. done.
Qed.

Lemma size_push item rb :
  wf rb -> (push item rb).1 = true -> size (push item rb).2 = size rb + 1.
Proof.
  intros Hwf Hok. pose proof (wf_push item rb Hwf) as Hwf'.
  rewrite !size_cases by done. destruct Hwf as (Hc & Hh & Ht & _).
  revert Hok. unfold push. rewrite next_index by lia.
  split_eqb; simpl; intros; try done; split_eqb; simpl in *; lia.
Qed.

Lemma size_pop rb :
  wf rb -> head_ rb <> tail_ rb -> size rb = size (pop rb).2 + 1.
Proof.
  intros Hwf Hne. pose proof (wf_pop rb Hwf) as Hwf'.
  rewrite !size_cases by done. destruct Hwf as (Hc & Hh & Ht & _).
  unfold pop. rewrite next_index by lia.
  split_eqb; simpl; try done; split_eqb; simpl in *; lia.
Qed.

Lemma size_zero_iff rb : wf rb -> size rb = 0 <-> head_ rb = tail_ rb.
Proof.
  intros Hwf. rewrite size_cases by done. destruct Hwf as (Hc & Hh & Ht & _).
  split_eqb; lia.
Qed.

Lemma contents_length rb : length (contents rb) = Z.to_nat (size rb).
Proof. unfold contents. by rewrite length_map, length_seq. Qed.

Lemma contents_make (capacity : Z) :
  0 < capacity < 2 ^ 63 -> contents (make (T:=T) capacity) = [].
Proof.
  intros Hc. apply length_zero_iff_nil. rewrite contents_length.
  replace (size (make capacity)) with 0; [done|].
  symmetry. apply size_zero_iff; [by apply wf_make | done].
Qed.

(** A successful [push] appends the item to the contents. *)
Lemma contents_push item rb :
  wf rb -> (push item rb).1 = true ->
  contents (push item rb).2 = contents rb ++ [item].
Proof.
  intros Hwf Hok. unfold contents. rewrite size_push by done.
  pose proof (size_range rb Hwf) as Hsz.
  pose proof (size_cases rb Hwf) as Hcases.
  destruct Hwf as (Hc & Hh & Ht & Hl).
  replace (Z.to_nat (size rb + 1)) with (S (Z.to_nat (size rb))) by lia.
  rewrite seq_S, map_app.
  assert ((push item rb).2 =
          mk (<[Z.to_nat (tail_ rb) := item]> (buffer_ rb)) (head_ rb)
             (wrap64 (tail_ rb + 1) mod capacity_ rb) (capacity_ rb)) as ->.
  { revert Hok. unfold push.
    by destruct (wrap64 (tail_ rb + 1) mod capacity_ rb =? head_ rb). }
  simpl. f_equal.
  - apply map_ext_in. intros k Hk%in_seq.
    apply list_lookup_total_insert_ne.
    rewrite offset_index by lia. revert Hcases. split_eqb; lia.
  - f_equal. rewrite Z2Nat.id by lia.
    replace ((head_ rb + size rb) mod capacity_ rb) with (tail_ rb).
    + apply list_lookup_total_insert_eq. lia.
    + rewrite offset_index by lia. revert Hcases. split_eqb; lia.
Qed.

(** A [pop] of a non-empty buffer returns the first of the contents and
    removes it. *)
Lemma contents_pop rb :
  wf rb -> head_ rb <> tail_ rb ->
  exists item, (pop rb).1 = Some item /\ contents rb = item :: contents (pop rb).2.
Proof.
  intros Hwf Hne. pose proof (size_pop rb Hwf Hne) as Hsz.
  pose proof (size_range _ (wf_pop rb Hwf)) as Hrange.
  replace (capacity_ (pop rb).2) with (capacity_ rb) in Hrange
    by (unfold pop; by case_match).
  destruct Hwf as (Hc & Hh & Ht & Hl).
  exists (buffer_ rb !!! Z.to_nat (head_ rb)). split.
  - unfold pop. by destruct (Z.eqb_spec (head_ rb) (tail_ rb)).
  - unfold contents at 1. rewrite Hsz.
    replace (Z.to_nat (size (pop rb).2 + 1))
      with (S (Z.to_nat (size (pop rb).2))) by lia.
    simpl. f_equal.
    + by rewrite Z.add_0_r, Z.mod_small by lia.
    + unfold contents. rewrite <- seq_shift, map_map.
      apply map_ext_in. intros k Hk%in_seq.
      unfold pop. destruct (Z.eqb_spec (head_ rb) (tail_ rb)); [done|]. simpl.
      do 2 f_equal. rewrite next_index by lia.
      rewrite !offset_index by (split_eqb; lia). split_eqb; lia.
Qed.

Lemma pop_empty rb : head_ rb = tail_ rb -> pop rb = (None, rb).
Proof. intros E. unfold pop. by destruct (Z.eqb_spec (head_ rb) (tail_ rb)). Qed.

Lemma push_full item rb : (push item rb).1 = false -> push item rb = (false, rb).
Proof. unfold push. by case_match. Qed.

(** The buffer behaves as the bounded queue of its contents. *)
Lemma step_refines_fifo o rb :
  wf rb ->
  fifo_step (capacity_ rb - 1) o (contents rb)
  = ((step o rb).1, contents (step o rb).2).
Proof.
  intros Hwf. pose proof (size_range rb Hwf) as Hsz.
  destruct o as [item|]; simpl.
  - rewrite contents_length, Z2Nat.id by lia.
    destruct (push item rb) as [ok rb'] eqn:Hp.
    destruct ok.
    + assert (size rb <> capacity_ rb - 1) as Hnf.
      { intros E%(push_fails_iff item); [|done]. by rewrite Hp in E. }
      destruct (Z.ltb_spec (size rb) (capacity_ rb - 1)); [|lia].
      simpl. f_equal.
      pose proof (contents_push item rb Hwf) as Hc. rewrite Hp in Hc.
      symmetry. by apply Hc.
    + pose proof (proj1 (push_fails_iff item rb Hwf)) as Hf.
      rewrite Hp in Hf. specialize (Hf eq_refl).
      destruct (Z.ltb_spec (size rb) (capacity_ rb - 1)); [lia|].
      pose proof (push_full item rb) as Hfull. rewrite Hp in Hfull.
      specialize (Hfull eq_refl). by inversion Hfull.
  - destruct (decide (head_ rb = tail_ rb)) as [E|E].
    + rewrite (pop_empty rb E). simpl.
      assert (contents rb = []) as ->; [|done].
      apply length_zero_iff_nil. rewrite contents_length.
      apply size_zero_iff in E; [|done]. by rewrite E.
    + destruct (contents_pop rb Hwf E) as (item & Hitem & Hcons).
      destruct (pop rb) as [r rb'] eqn:Hp. simpl in *. subst r.
      by rewrite Hcons.
Qed.

Lemma run_refines_fifo ops rb :
  wf rb ->
  fifo_run (capacity_ rb - 1) ops (contents rb)
  = ((run ops rb).1, contents (run ops rb).2).
Proof.
  revert rb. induction ops as [|o ops IH]; intros rb Hwf; simpl; [done|].
  rewrite (step_refines_fifo o rb Hwf).
  pose proof (wf_step o rb Hwf) as Hwf'.
  pose proof (capacity_step o rb) as Hcap.
  destruct (step o rb) as [r rb']. simpl in *.
  specialize (IH rb' Hwf'). rewrite Hcap in IH. rewrite IH.
  by destruct (run ops rb').
Qed.

End RingBufferFacts.

(** ** Size bound and first-in first-out order *)

Section RingBufferClaims.
Import ConcurrentRingBuffer.

Lemma run_make_wf {T : Type} `{!Inhabited T} (capacity : Z) (ops : list op) :
  0 < capacity < 2 ^ 63 ->
  wf (run ops (make (T:=T) capacity)).2 /\
  capacity_ (run ops (make (T:=T) capacity)).2 = capacity.
Proof.
  intros Hc. split; [by apply wf_run, wf_make|].
  generalize (make (T:=T) capacity) (eq_refl : capacity_ (make (T:=T) capacity) = capacity).
  induction ops as [|o ops IH]; intros rb Hcap; simpl; [done|].
  pose proof (capacity_step o rb) as Hs.
  destruct (step o rb) as [r rb']. simpl in Hs.
  specialize (IH rb' ltac:(congruence)). by destruct (run ops rb').
Qed.

(** C7, the claim as stated fails: with one item already stored, the pop
    that follows a successful push of 2 returns the older item 1. *)
Lemma pop_after_push_returns_oldest :
  let rb := (run [Push 1] (make 4)).2 in
  (push 2 rb).1 = true /\ (pop (push 2 rb).2).1 = Some 1.
Proof. by vm_compute. Qed.

(** C7 (amended): for every sequence of push and pop operations on a buffer
    constructed with a capacity of at least 1, [size()] is never negative
    and never exceeds the capacity; a pop immediately following a successful
    push onto an empty buffer returns the pushed item; and in general the
    operations return what a bounded first-in first-out queue returns, so
    pops deliver the stored items oldest first. *)
Theorem ring_buffer_size_bounded_and_fifo
    {T : Type} `{!Inhabited T} (capacity : Z) (ops : list op) :
  0 < capacity < 2 ^ 63 ->
  let rb := (run ops (make (T:=T) capacity)).2 in
  (0 <= size rb <= capacity) /\
  (forall item, size rb = 0 -> (push item rb).1 = true ->
                (pop (push item rb).2).1 = Some item) /\
  (forall item, (push item rb).1 = true ->
                (pop (push item rb).2).1 = head (contents rb ++ [item])) /\
  (run ops (make (T:=T) capacity)).1 = (fifo_run (capacity - 1) ops []).1.
Proof.
  intros Hc rb. destruct (run_make_wf capacity ops Hc) as [Hwf Hcap].
  fold rb in Hwf, Hcap.
  assert (forall item, (push item rb).1 = true ->
            (pop (push item rb).2).1 = head (contents rb ++ [item])) as Hfifo.
  { intros item Hok.
    pose proof (wf_push item rb Hwf) as Hwf'.
    pose proof (contents_push item rb Hwf Hok) as Hcont.
    destruct (decide (head_ (push item rb).2 = tail_ (push item rb).2)) as [E|E].
    - apply size_zero_iff in E; [|done].
      rewrite size_push in E by done. pose proof (size_range rb Hwf). lia.
    - destruct (contents_pop _ Hwf' E) as (x & Hx & Hcons).
      rewrite Hx. rewrite <- Hcont, Hcons. done. }
  split; [|split; [|split]].
  - pose proof (size_range rb Hwf). lia.
  - intros item Hz Hok. rewrite (Hfifo item Hok).
    assert (contents rb = []) as ->; [|done].
    apply length_zero_iff_nil. rewrite contents_length. by rewrite Hz.
  - done.
  - pose proof (run_refines_fifo ops (make capacity) (wf_make capacity Hc)) as Href.
    rewrite contents_make in Href by done. simpl in Href.
    by rewrite Href.
Qed.

(** On a buffer of capacity 4 emptied again by two pops, a pushed 7 is what
    the next pop returns. *)
Lemma ring_buffer_size_bounded_and_fifo_witness :
  let rb := (run [Push 1; Push 2; Pop; Pop] (make (T:=Z) 4)).2 in
  0 < 4 < 2 ^ 63 /\
  size rb = 0 /\ (push 7 rb).1 = true /\ (pop (push 7 rb).2).1 = Some 7.
Proof.
  intros rb. split; [lia|]. split; [by vm_compute|]. split; [by vm_compute|].
  destruct (ring_buffer_size_bounded_and_fifo 4 [Push 1; Push 2; Pop; Pop])
    as (_ & Hempty & _); [lia|].
  apply Hempty; by vm_compute.
Defined.

End RingBufferClaims.

(** ** The scheduler's history buffer *)

Section SchedulerFacts.
Import NetworkAwareScheduler.

Lemma add_metrics_sample_buffer (m : NetworkMetrics) (s : t) :
  metrics_buffer_ (add_metrics_sample m s)
  = (ConcurrentRingBuffer.push m (metrics_buffer_ s)).2.
Proof.
  unfold add_metrics_sample.
  by destruct (ConcurrentRingBuffer.push m (metrics_buffer_ s)).
Qed.

Lemma metrics_buffer_wf (samples : list NetworkMetrics) (s : t) :
  ConcurrentRingBuffer.wf (metrics_buffer_ s) ->
  ConcurrentRingBuffer.wf (metrics_buffer_ (record_all samples s)) /\
  ConcurrentRingBuffer.capacity_ (metrics_buffer_ (record_all samples s))
  = ConcurrentRingBuffer.capacity_ (metrics_buffer_ s).
Proof.
  revert s. induction samples as [|m samples IH]; intros s Hwf; [done|].
  unfold record_all in *. simpl.
  destruct (IH (add_metrics_sample m s)) as [IH1 IH2].
  { rewrite add_metrics_sample_buffer. by apply wf_push. }
  split; [done|]. rewrite IH2, add_metrics_sample_buffer.
  apply capacity_push.
Qed.

End SchedulerFacts.

(** C10: a buffer constructed with capacity C (at least 1) stores at most
    C-1 items: after any sequence of operations [size()] is at most C-1 and
    so is the number of stored items, [push] returns false exactly when
    [size()] is C-1, and the scheduler's 100-slot history never holds more
    than 99 samples, whatever samples are recorded. *)
Theorem ring_buffer_holds_at_most_capacity_minus_one
    {T : Type} `{!Inhabited T} (capacity : Z)
    (ops : list (ConcurrentRingBuffer.op (T:=T))) :
  0 < capacity < 2 ^ 63 ->
  let rb := (ConcurrentRingBuffer.run ops (ConcurrentRingBuffer.make capacity)).2 in
  ConcurrentRingBuffer.size rb <= capacity - 1 /\
  Z.of_nat (length (ConcurrentRingBuffer.contents rb)) <= capacity - 1 /\
  (forall item,
     (ConcurrentRingBuffer.push item rb).1 = false
     <-> ConcurrentRingBuffer.size rb = capacity - 1) /\
  (forall samples,
     ConcurrentRingBuffer.size
       (NetworkAwareScheduler.metrics_buffer_
          (NetworkAwareScheduler.record_all samples NetworkAwareScheduler.make))
     <= 99).
Proof.
  intros Hc rb. destruct (run_make_wf capacity ops Hc) as [Hwf Hcap].
  fold rb in Hwf, Hcap. pose proof (size_range rb Hwf) as Hsz.
  rewrite Hcap in Hsz.
  split; [lia|]. split; [rewrite contents_length; lia|]. split.
  - intros item. rewrite <- Hcap. by apply push_fails_iff.
  - intros samples.
    destruct (metrics_buffer_wf samples NetworkAwareScheduler.make) as [Hw Hcp].
    { apply wf_make. lia. }
    pose proof (size_range _ Hw) as Hs. rewrite Hcp in Hs. simpl in Hs. lia.
Qed.

(** A buffer of capacity 3 takes two items and refuses the third and the
    fourth. *)
Lemma ring_buffer_holds_at_most_capacity_minus_one_witness :
  let ops := [ConcurrentRingBuffer.Push 1; ConcurrentRingBuffer.Push 2;
              ConcurrentRingBuffer.Push 3] in
  let rb := (ConcurrentRingBuffer.run ops (ConcurrentRingBuffer.make (T:=Z) 3)).2 in
  0 < 3 < 2 ^ 63 /\
  ConcurrentRingBuffer.size rb = 2 /\
  (ConcurrentRingBuffer.push 4 rb).1 = false.
Proof.
  intros ops rb. split; [lia|]. split; [by vm_compute|].
  destruct (ring_buffer_holds_at_most_capacity_minus_one 3 ops)
    as (_ & _ & Hfull & _); [lia|].
  apply Hfull. by vm_compute.
Defined.

(** ** The adaptive bitrate *)

Lemma static_cast_int_fits (indefinite : float -> Z) (f : float) (z : Z) :
  truncate f = Some z -> fits_int f = true -> static_cast_int indefinite f = z.
Proof.
  unfold fits_int, static_cast_int. intros -> Hfits. by rewrite Hfits.
Qed.

Lemma static_cast_size_t_fits (indefinite : float -> Z) (f : float) (z : Z) :
  truncate f = Some z -> fits_size_t f = true ->
  static_cast_size_t indefinite f = z.
Proof.
  unfold fits_size_t, static_cast_size_t. intros -> Hfits. by rewrite Hfits.
Qed.

(** C3: one sample of 10^8 Mbps at zero latency leaves a smoothed bandwidth
    of 2e7 Mbps and a product of 1.6e10, beyond [int].  The formula of the
    claim, clamped, is 20000; the source converts before it clamps, the
    conversion of x86-64 yields [INT_MIN], and the function returns 300. *)
Lemma bitrate_of_unrepresentable_product :
  let s := NetworkAwareScheduler.record_all
             [NetworkAwareScheduler.mkMetrics 1e8 0 0 0 0]
             NetworkAwareScheduler.make in
  NetworkAwareScheduler.bitrate_product s = 16000000000%float /\
  fits_int (NetworkAwareScheduler.bitrate_product s) = false /\
  NetworkAwareScheduler.bitrate_spec s = Some 20000 /\
  NetworkAwareScheduler.calculate_optimal_bitrate x86_64_int_indefinite s = 300.
Proof. by vm_compute. Qed.

(** What does hold of [calculate_optimal_bitrate] in every state reached by
    recording samples: the result is within [300, 20000]; and whenever the
    product [bandwidth_kbps * safety * 0.8] truncates to a value an [int]
    can hold, the result is that truncation clamped to [300, 20000], with
    [safety = max(0.7, 1 - latency/100)] and [bandwidth_kbps] the smoothed
    bandwidth times 1000. *)
Theorem optimal_bitrate_clamped
    (indefinite : float -> Z)
    (samples : list NetworkAwareScheduler.NetworkMetrics) :
  let s := NetworkAwareScheduler.record_all samples NetworkAwareScheduler.make in
  300 <= NetworkAwareScheduler.calculate_optimal_bitrate indefinite s <= 20000 /\
  (fits_int (NetworkAwareScheduler.bitrate_product s) = true ->
   NetworkAwareScheduler.bitrate_spec s
   = Some (NetworkAwareScheduler.calculate_optimal_bitrate indefinite s)).
Proof.
  intros s. split.
  - unfold NetworkAwareScheduler.calculate_optimal_bitrate. lia.
  - intros Hfits.
    unfold NetworkAwareScheduler.bitrate_spec,
      NetworkAwareScheduler.calculate_optimal_bitrate.
    change (NetworkAwareScheduler.smoothed_bandwidth_ s * 1000
            * std_max 0.7 (1.0 - NetworkAwareScheduler.smoothed_latency_ s / 100.0)
            * 0.8)%float
      with (NetworkAwareScheduler.bitrate_product s).
    destruct (truncate (NetworkAwareScheduler.bitrate_product s)) as [z|] eqn:Ht.
    + by rewrite (static_cast_int_fits indefinite _ z Ht Hfits).
    + unfold fits_int in Hfits. by rewrite Ht in Hfits.
Qed.

(** At a smoothed bandwidth of 5 Mbps and a smoothed latency of 50 ms the
    product is 2800 kbps and the function returns it. *)
Lemma optimal_bitrate_clamped_example :
  let s := NetworkAwareScheduler.record_all
             [NetworkAwareScheduler.mkMetrics 25 250 0 0 0]
             NetworkAwareScheduler.make in
  fits_int (NetworkAwareScheduler.bitrate_product s) = true /\
  NetworkAwareScheduler.bitrate_spec s = Some 2800 /\
  NetworkAwareScheduler.bitrate_spec s
  = Some (NetworkAwareScheduler.calculate_optimal_bitrate
            x86_64_int_indefinite s).
Proof.
  intros s. split; [by vm_compute|]. split; [by vm_compute|].
  apply (optimal_bitrate_clamped x86_64_int_indefinite
           [NetworkAwareScheduler.mkMetrics 25 250 0 0 0]).
  by vm_compute.
Defined.

(** ** Packetization *)

Section ProtocolFacts.
Import QuantumStreamProtocol.

Lemma chunk_size_range (indefinite : float -> Z) (p : t) :
  1024 <= calculate_optimal_chunk_size indefinite p <= 65536.
Proof. unfold calculate_optimal_chunk_size. lia. Qed.

(** C5: at a smoothed bandwidth of 5 Mbps and a smoothed latency of 50 ms
    the chunk lasts 100 ms.  The bandwidth is in Mbps and times 1000 in
    kbps, so [bandwidth * 1000 * optimal_size_ms] is 500000 bits and the
    formula of the claim gives 500000 / 8 = 62500 bytes.  The source divides
    by 8000, which gives 62.5, a count of kilobytes, and uses it as a count
    of bytes: the conversion truncates it to 62 and the function returns
    the lower clamp 1024. *)
Lemma chunk_size_divides_by_8000 :
  let p := mk ChunkQuadTree.make
              (NetworkAwareScheduler.record_all
                 [NetworkAwareScheduler.mkMetrics 25 250 0 0 0]
                 NetworkAwareScheduler.make) in
  chunk_quotient 8 p = 62500%float /\
  chunk_bytes_spec p = Some 62500 /\
  chunk_quotient 8000 p = 62.5%float /\
  fits_size_t (chunk_quotient 8000 p) = true /\
  calculate_optimal_chunk_size (fun _ => 0) p = 1024.
Proof. by vm_compute. Qed.

(** What does hold of [calculate_optimal_chunk_size] as it is written: in
    every state the result is within [1024, 65536]; and whenever the
    quotient by 8000 truncates to a value a [size_t] can hold, the result
    is that truncation clamped to [1024, 65536]. *)
Theorem chunk_size_formula (indefinite : float -> Z) (p : t) :
  1024 <= calculate_optimal_chunk_size indefinite p <= 65536 /\
  (fits_size_t (chunk_quotient 8000 p) = true ->
   chunk_bytes_formula 8000 p
   = Some (calculate_optimal_chunk_size indefinite p)).
Proof.
  split; [apply chunk_size_range|]. intros Hfits.
  unfold chunk_bytes_formula, calculate_optimal_chunk_size.
  change (NetworkAwareScheduler.smoothed_bandwidth (scheduler_ p) * 1000
          * std_max 100.0
              (std_min 2000.0
                 (NetworkAwareScheduler.smoothed_latency (scheduler_ p) * 2))
          / 8000)%float
    with (chunk_quotient 8000 p).
  destruct (truncate (chunk_quotient 8000 p)) as [z|] eqn:Ht.
  - by rewrite (static_cast_size_t_fits indefinite _ z Ht Hfits).
  - unfold fits_size_t in Hfits. by rewrite Ht in Hfits.
Qed.

(** At a smoothed bandwidth of 500 Mbps and a smoothed latency of 50 ms the
    quotient is 500000 * 100 / 8000 = 6250 bytes, within the clamp. *)
Lemma chunk_size_formula_example :
  let p := mk ChunkQuadTree.make
              (NetworkAwareScheduler.record_all
                 [NetworkAwareScheduler.mkMetrics 2500 250 0 0 0]
                 NetworkAwareScheduler.make) in
  fits_size_t (chunk_quotient 8000 p) = true /\
  chunk_bytes_formula 8000 p = Some 6250 /\
  chunk_bytes_formula 8000 p
  = Some (calculate_optimal_chunk_size (fun _ => 0) p).
Proof.
  intros p. split; [by vm_compute|]. split; [by vm_compute|].
  apply (chunk_size_formula (fun _ => 0) p). by vm_compute.
Defined.

End ProtocolFacts.

Section PacketFacts.
Import QuantumStreamProtocol.
Variable clock : nat -> Z.
Variables (chunk_size : Z) (media_data : list byte) (stream_id : Z).
Hypothesis chunk_size_pos : 1 <= chunk_size.

Let total : Z := Z.of_nat (length media_data).

(** The loop, given a budget that covers the bytes left, ends with the
    packets described by [chunked]. *)
Lemma generate_packets_from_chunked (fuel : nat) (i : Z)
    (packets : list QuantumPacket) :
  0 <= i -> total + chunk_size < 2 ^ 64 ->
  Z.max 0 (total - i) < Z.of_nat fuel ->
  exists rest,
    generate_packets_from clock fuel chunk_size media_data stream_id i packets
    = Some (packets ++ rest) /\
    chunked clock chunk_size media_data stream_id i (length packets) rest.
Proof.
  revert i packets. induction fuel as [|fuel IH]; intros i packets Hi Hmax Hfuel.
  { lia. }
  simpl. fold total. destruct (Z.ltb_spec i total) as [Hlt|Hge].
  - rewrite wrap64_small by lia.
    destruct (IH (i + chunk_size)
                 (packets ++
                  [mkPacket stream_id (wrap32 (i / chunk_size))
                     (wrap32 (Z.of_nat (length packets)))
                     (clock (length packets))
                     (take (Z.to_nat (Z.min (i + chunk_size) total - i))
                        (drop (Z.to_nat i) media_data))
                     (calculate_chunk_priority i total)]))
      as (rest & Hrun & Hrest); [lia | lia | lia |].
    eexists. split.
    + rewrite Hrun, <- app_assoc. reflexivity.
    + rewrite length_app in Hrest. simpl in Hrest.
      rewrite Nat.add_1_r in Hrest.
      replace (take (Z.to_nat (Z.min (i + chunk_size) total - i))
                 (drop (Z.to_nat i) media_data))
        with (take (Z.to_nat chunk_size) (drop (Z.to_nat i) media_data)).
      * by apply chunked_cons.
      * destruct (Z.le_gt_cases (i + chunk_size) total).
        -- f_equal. lia.
        -- rewrite !take_ge; [done | |]; rewrite length_drop; unfold total in *; lia.
  - exists []. split; [by rewrite app_nil_r|]. by apply chunked_end.
Qed.

(** The packet payloads, in order, are the payload from offset [i] on. *)
Lemma chunked_concat (i : Z) (k : nat) (rest : list QuantumPacket) :
  0 <= i ->
  chunked clock chunk_size media_data stream_id i k rest ->
  concat (map data rest) = drop (Z.to_nat i) media_data.
Proof.
  intros Hi Hch. induction Hch as [i k Hge|i k rest Hlt Hch IH].
  - simpl. symmetry. apply drop_ge. lia.
  - simpl. rewrite IH by lia.
    replace (Z.to_nat (i + chunk_size)) with (Z.to_nat i + Z.to_nat chunk_size)%nat
      by lia.
    rewrite <- drop_drop. apply take_drop.
Qed.

(** The packet at index [j] starts at byte [i + j * chunk_size]. *)
Lemma chunked_lookup (i : Z) (k : nat) (rest : list QuantumPacket)
    (j : nat) (pk : QuantumPacket) :
  chunked clock chunk_size media_data stream_id i k rest ->
  rest !! j = Some pk ->
  let off := i + Z.of_nat j * chunk_size in
  off < total /\
  pk = mkPacket stream_id (wrap32 (off / chunk_size))
                (wrap32 (Z.of_nat (k + j))) (clock (k + j)%nat)
                (take (Z.to_nat chunk_size) (drop (Z.to_nat off) media_data))
                (calculate_chunk_priority off total).
Proof.
  intros Hch. revert j. induction Hch as [i k Hge|i k rest Hlt Hch IH]; intros j Hj.
  - done.
  - destruct j as [|j]; simpl in Hj.
    + inversion Hj; subst. simpl.
      rewrite Z.add_0_r, Nat.add_0_r. done.
    + destruct (IH j Hj) as [Hoff Hpk]. simpl in Hoff, Hpk.
      replace (i + Z.of_nat (S j) * chunk_size)
        with (i + chunk_size + Z.of_nat j * chunk_size) by lia.
      replace (k + S j)%nat with (S k + j)%nat by lia.
      done.
Qed.

Lemma chunked_sizes (i : Z) (k : nat) (rest : list QuantumPacket)
    (j : nat) (pk : QuantumPacket) :
  0 <= i ->
  chunked clock chunk_size media_data stream_id i k rest ->
  rest !! j = Some pk ->
  Z.of_nat (length (data pk)) <= chunk_size /\
  (S j < length rest -> Z.of_nat (length (data pk)) = chunk_size)%nat.
Proof.
  intros Hi Hch Hj. destruct (chunked_lookup i k rest j pk Hch Hj) as [Hoff ->].
  simpl. rewrite length_take, length_drop. split; [lia|].
  intros Hnext. destruct (lookup_lt_is_Some_2 rest (S j) Hnext) as [pk' Hj'].
  destruct (chunked_lookup i k rest (S j) pk' Hch Hj') as [Hoff' _].
  unfold total in *. lia.
Qed.

End PacketFacts.

Lemma sum_list_lengths {A : Type} (ls : list (list A)) :
  sum_list (map length ls) = length (concat ls).
Proof.
  induction ls as [|l ls IH]; simpl; [done|]. by rewrite length_app, IH.
Qed.

Section PacketClaims.
Import QuantumStreamProtocol.

Lemma generate_packets_chunked (clock : nat -> Z) (indefinite : float -> Z)
    (p : t) (media_data : list byte) (stream_id : Z) :
  Z.of_nat (length media_data) < 2 ^ 63 ->
  exists packets,
    generate_packets clock indefinite p media_data stream_id = Some packets /\
    chunked clock (calculate_optimal_chunk_size indefinite p) media_data
            stream_id 0 0 packets.
Proof.
  intros Hlen. pose proof (chunk_size_range indefinite p) as Hc.
  unfold generate_packets.
  destruct (generate_packets_from_chunked clock
              (calculate_optimal_chunk_size indefinite p) media_data stream_id
              ltac:(lia) (S (length media_data)) 0 [])
    as (rest & Hrun & Hrest); [lia | lia | lia |].
  exists rest. done.
Qed.

(** C4: for a payload of S bytes (a vector holds fewer than 2^63) and any
    stream id, [generate_packets] returns packets whose payloads concatenate
    to the payload, so their sizes sum to S; every packet except possibly
    the last carries exactly the computed chunk size and the last at most
    that size; and the computed chunk size is within [1024, 65536] whatever
    the smoothed latency and bandwidth are. *)
Theorem packets_partition_payload (clock : nat -> Z) (indefinite : float -> Z)
    (p : t) (media_data : list byte) (stream_id : Z) :
  Z.of_nat (length media_data) < 2 ^ 63 ->
  let chunk_size := calculate_optimal_chunk_size indefinite p in
  1024 <= chunk_size <= 65536 /\
  exists packets,
    generate_packets clock indefinite p media_data stream_id = Some packets /\
    concat (map data packets) = media_data /\
    sum_list (map (fun pk => length (data pk)) packets) = length media_data /\
    forall (j : nat) (pk : QuantumPacket),
      packets !! j = Some pk ->
      Z.of_nat (length (data pk)) <= chunk_size /\
      (S j < length packets -> Z.of_nat (length (data pk)) = chunk_size)%nat.
Proof.
  intros Hlen chunk_size. pose proof (chunk_size_range indefinite p) as Hc.
  fold chunk_size in Hc. split; [done|].
  destruct (generate_packets_chunked clock indefinite p media_data stream_id Hlen)
    as (packets & Hrun & Hch).
  fold chunk_size in Hch.
  pose proof (chunked_concat clock chunk_size media_data stream_id
                ltac:(lia) 0 0%nat packets ltac:(lia) Hch) as Hcat.
  change (concat (map data packets) = media_data) in Hcat.
  exists packets. split; [done|]. split; [done|]. split.
  - rewrite <- Hcat. rewrite <- sum_list_lengths, map_map. done.
  - intros j pk Hj.
    apply (chunked_sizes clock chunk_size media_data stream_id ltac:(lia)
             0 0%nat packets j pk); [lia | done | done].
Qed.

(** A payload of 2500 bytes at chunk size 1024: packets of 1024, 1024 and
    452 bytes. *)
Lemma packets_partition_payload_witness :
  Z.of_nat (length (replicate 2500 x00)) < 2 ^ 63 /\
  exists packets,
    generate_packets (fun _ => 0) (fun _ => 0) make (replicate 2500 x00) 7
    = Some packets /\
    map (fun pk => length (data pk)) packets = [1024; 1024; 452]%nat /\
    concat (map data packets) = replicate 2500 x00.
Proof.
  split; [by vm_compute|].
  destruct (packets_partition_payload (fun _ => 0) (fun _ => 0) make
              (replicate 2500 x00) 7)
    as (_ & packets & Hrun & Hcat & _); [by vm_compute|].
  exists packets. split; [done|]. split; [|done].
  vm_compute in Hrun. injection Hrun as <-. by vm_compute.
Defined.




End PacketClaims.

(** ** Chunk sequencing *)

Section ChunkTreeFacts.
Import ChunkQuadTree.

Lemma unvisited_mark (visited : list bool) (i : nat) :
  visited !! i = Some false ->
  (unvisited (<[i := true]> visited) + 1 = unvisited visited)%nat.
Proof.
  revert i. induction visited as [|b visited IH]; intros i Hi; [done|].
  destruct i as [|i]; simpl in *.
  - inversion Hi; subst. simpl. lia.
  - rewrite <- (IH i Hi). lia.
Qed.

Lemma unvisited_replicate (n : nat) : unvisited (replicate n false) = n.
Proof. induction n as [|n IH]; simpl; [done|]. by rewrite IH. Qed.

(** A loop whose body neither runs out of budget nor adds unvisited nodes
    does neither itself. *)
Lemma for_each_budget (body : Z -> list bool * list Z -> outcome (list bool * list Z))
    (bound : nat) (deps : list Z) (st : list bool * list Z) :
  (forall dep st0, (unvisited st0.1 <= bound)%nat ->
     body dep st0 <> OutOfFuel /\
     forall st1, body dep st0 = Done st1 ->
                 (unvisited st1.1 <= unvisited st0.1)%nat) ->
  (unvisited st.1 <= bound)%nat ->
  for_each body deps st <> OutOfFuel /\
  forall st1, for_each body deps st = Done st1 ->
              (unvisited st1.1 <= unvisited st.1)%nat.
Proof.
  intros Hbody. revert st. induction deps as [|dep deps IH]; intros st Hst; simpl.
  - split; [done|]. intros st1 [= <-]. lia.
  - destruct (Hbody dep st Hst) as [Hnf Hle].
    destruct (body dep st) as [st'| |] eqn:Hb; [|done|done].
    specialize (Hle st' eq_refl).
    destruct (IH st' ltac:(lia)) as [Hnf' Hle'].
    split; [done|]. intros st1 H1. specialize (Hle' st1 H1). lia.
Qed.

(** The traversal never exhausts a budget larger than the number of
    unvisited nodes, and never unvisits a node. *)
Lemma dfs_budget (fuel : nat) (nodes : list Node) (node_id : Z)
    (st : list bool * list Z) :
  (unvisited st.1 < fuel)%nat ->
  dfs fuel nodes node_id st <> OutOfFuel /\
  forall st1, dfs fuel nodes node_id st = Done st1 ->
              (unvisited st1.1 <= unvisited st.1)%nat.
Proof.
  revert node_id st. induction fuel as [|fuel IH]; intros node_id st Hfuel; [lia|].
  simpl. destruct (st.1 !! Z.to_nat node_id) as [[|]|] eqn:Hv.
  - split; [done|]. intros st1 [= <-]. lia.
  - destruct (nodes !! Z.to_nat node_id) as [n|]; [|done].
    pose proof (unvisited_mark _ _ Hv) as Hmark.
    destruct (for_each_budget (dfs fuel nodes) (fuel - 1) (children n)
                (<[Z.to_nat node_id := true]> st.1, st.2)) as [Hnf Hle].
    { intros dep st0 Hst0. apply IH. lia. }
    { simpl. lia. }
    destruct (for_each _ _ _) as [[visited sequence]| |]; [|done|done].
    split; [done|]. intros st1 [= <-]. specialize (Hle _ eq_refl).
    simpl in *. lia.
  - done.
Qed.

(** The budget [get_optimal_chunk_sequence] grants is enough for every
    tree: the result is a sequence or an index out of range. *)
Lemma get_optimal_chunk_sequence_budget (target_bitrate : Z) (tree : t) :
  get_optimal_chunk_sequence target_bitrate tree <> OutOfFuel.
Proof.
  unfold get_optimal_chunk_sequence.
  destruct (dfs_budget (S (length (nodes_ tree))) (nodes_ tree) (root_id_ tree)
              (replicate (length (nodes_ tree)) false, [])) as [Hnf _].
  { simpl. rewrite unvisited_replicate. lia. }
  destruct (dfs _ _ _ _) as [[visited sequence]| |]; done.
Qed.

(** [insert_chunk] appends a node and leaves the root alone: node 0 stays
    the childless non-leaf node the constructor pushed. *)
Lemma insert_all_root (ins : list insertion) (tree : t) :
  root_id_ (insert_all ins tree) = root_id_ tree /\
  exists more, nodes_ (insert_all ins tree) = nodes_ tree ++ more.
Proof.
  revert tree. induction ins as [|[[[c ts] sz] deps] ins IH]; intros tree.
  - split; [done|]. exists []. by rewrite app_nil_r.
  - unfold insert_all in *. simpl.
    destruct (IH (insert_chunk c ts sz deps tree)) as (Hroot & more & Hnodes).
    split; [done|]. eexists. rewrite Hnodes. simpl.
    rewrite <- app_assoc. reflexivity.
Qed.

(** C2: whatever chunks are inserted, the traversal from the root ends
    after the root itself and the returned sequence is empty: no inserted
    leaf chunk is emitted. *)
Theorem chunk_sequence_always_empty (ins : list insertion)
    (target_bitrate : Z) :
  get_optimal_chunk_sequence target_bitrate (insert_all ins make) = Done [].
Proof.
  destruct (insert_all_root ins make) as (Hroot & more & Hnodes).
  unfold get_optimal_chunk_sequence. rewrite Hroot, Hnodes. by simpl.
Qed.

(** C2 at a concrete graph: chunk 1 is a leaf, chunk 2 depends on node 1;
    neither is emitted. *)
Lemma chunk_sequence_misses_inserted_leaf :
  let tree := insert_chunk 2 0 0 [1] (insert_chunk 1 0 0 [] make) in
  (exists n, nodes_ tree !! 1%nat = Some n /\ chunk_id n = 1 /\ is_leaf n = true) /\
  get_optimal_chunk_sequence 0 tree = Done [].
Proof. split; [by eexists | by vm_compute]. Qed.

End ChunkTreeFacts.

(** ** Task placement and submission *)

Section IOCoreFacts.
Import QuantumIOCore.
Context {Task Gen : Type} (dist : Gen -> Z * Gen).

(** C9: [size_approx()] is 0 for every queue, whatever it holds; so
    [get_optimal_queue] compares 0 with 0, returns the second index drawn,
    and its choice does not depend on the queues. *)
Theorem placement_ignores_occupancy (core : t Task) (gen : Gen) :
  (forall q : LockFreeMPSCQueue.t Task, LockFreeMPSCQueue.size_approx q = 0) /\
  get_optimal_queue dist core gen = dist (dist gen).2 /\
  (forall core' : t Task,
     get_optimal_queue dist core' gen = get_optimal_queue dist core gen) /\
  (forall func,
     task_queues_ (submit dist func core gen).1
     = alter (LockFreeMPSCQueue.push func)
             (Z.to_nat (dist (dist gen).2).1) (task_queues_ core)).
Proof.
  assert (forall c : t Task, get_optimal_queue dist c gen = dist (dist gen).2)
    as Hsecond.
  { intros c. unfold get_optimal_queue.
    destruct (dist gen) as [q1 gen1]. simpl.
    destruct (dist gen1) as [q2 gen2]. done. }
  split; [done|]. split; [done|]. split.
  - intros core'. by rewrite !Hsecond.
  - intros func. unfold submit. rewrite Hsecond.
    by destruct (dist (dist gen).2).
Qed.

(** C8 (amended): [submit] does not read the running flag: after shutdown
    it does what it does before, it appends the task to the queue that
    [get_optimal_queue] selects, leaves the flag as it is, and returns
    nothing to its caller. *)
Theorem submit_ignores_running_flag (func : Task) (core : t Task) (gen : Gen) :
  let idx := Z.to_nat (get_optimal_queue dist core gen).1 in
  submit dist func (shutdown core) gen
  = (shutdown (submit dist func core gen).1, (submit dist func core gen).2) /\
  running_ (submit dist func (shutdown core) gen).1 = false /\
  (forall q, task_queues_ core !! idx = Some q ->
     task_queues_ (submit dist func (shutdown core) gen).1 !! idx
     = Some (LockFreeMPSCQueue.push func q)).
Proof.
  intros idx.
  assert (submit dist func (shutdown core) gen
          = (shutdown (submit dist func core gen).1,
             (submit dist func core gen).2)) as Heq.
  { unfold submit, get_optimal_queue, shutdown. simpl.
    destruct (dist gen) as [q1 gen1]. destruct (dist gen1) as [q2 gen2]. done. }
  split; [done|]. rewrite Heq. split; [done|].
  intros q Hq. simpl. unfold submit. subst idx.
  destruct (get_optimal_queue dist core gen) as [queue_idx gen']. simpl in *.
  by rewrite list_lookup_alter_eq, Hq.
Qed.

End IOCoreFacts.

(** C8, the claim as stated fails: a task submitted after shutdown is
    appended to a queue like any other.  The generator here draws index 0,
    then index 1. *)
Lemma submit_after_shutdown_enqueues :
  let dist := fun g : nat => (Z.of_nat g mod 2, S g) in
  let core := QuantumIOCore.shutdown (QuantumIOCore.make (Task:=nat) 2) in
  QuantumIOCore.running_ core = false /\
  QuantumIOCore.task_queues_ core = [[]; []] /\
  QuantumIOCore.task_queues_ (QuantumIOCore.submit dist 42%nat core 0%nat).1
  = [[]; [42%nat]].
Proof. by vm_compute. Qed.

(** Two queues, the generator drawing index 0 then index 1: the task lands
    on queue 1 although the core has been shut down. *)
Lemma submit_ignores_running_flag_witness :
  let dist := fun g : nat => (Z.of_nat g mod 2, S g) in
  let core := QuantumIOCore.make (Task:=nat) 2 in
  QuantumIOCore.task_queues_ core !! 1%nat = Some [] /\
  QuantumIOCore.task_queues_
    (QuantumIOCore.submit dist 42%nat (QuantumIOCore.shutdown core) 0%nat).1
    !! 1%nat
  = Some [42%nat].
Proof.
  intros dist core. split; [by vm_compute|].
  destruct (submit_ignores_running_flag dist 42%nat core 0%nat)
    as (_ & _ & Henq).
  apply (Henq []). by vm_compute.
Defined.

(** ** The pipeline's first buffer *)

Section PipelineFacts.
Import ProcessingPipeline.

(** C1: when the buffer of stage 0 is full, [process] leaves the pipeline
    exactly as it was: the data is in no buffer afterwards, and [process],
    returning [void], tells its caller nothing. *)
Theorem process_drops_when_stage0_full (data : list byte) (p : t)
    (stage0 : Stage) (rest : list Stage) :
  stages_ p = stage0 :: rest ->
  ConcurrentRingBuffer.wf (buffer stage0) ->
  ConcurrentRingBuffer.size (buffer stage0)
  = ConcurrentRingBuffer.capacity_ (buffer stage0) - 1 ->
  process data p = p.
Proof.
  intros Hstages Hwf Hfull. unfold process. rewrite Hstages.
  apply (push_fails_iff data) in Hfull; [|done].
  rewrite (push_full data (buffer stage0) Hfull).
  destruct p as [stages]. simpl in *. subst stages. by destruct stage0.
Qed.

End PipelineFacts.

(** The video pipeline, whose first buffer has capacity 5, holds four frames;
    the fifth is dropped. *)
Lemma process_drops_when_stage0_full_witness :
  let p4 := ProcessingPipeline.process [x04]
              (ProcessingPipeline.process [x03]
                 (ProcessingPipeline.process [x02]
                    (ProcessingPipeline.process [x01]
                       (ProcessingPipeline.setup_video_pipeline
                          ProcessingPipeline.make)))) in
  (exists stage0 rest,
     ProcessingPipeline.stages_ p4 = stage0 :: rest /\
     ConcurrentRingBuffer.capacity_ (ProcessingPipeline.buffer stage0) = 5 /\
     ConcurrentRingBuffer.contents (ProcessingPipeline.buffer stage0)
     = [[x01]; [x02]; [x03]; [x04]]) /\
  ProcessingPipeline.process [x05] p4 = p4.
Proof.
  intros p4. split.
  - eexists _, _. split; [reflexivity|]. by vm_compute.
  - eapply process_drops_when_stage0_full.
    + reflexivity.
    + repeat split; by vm_compute.
    + by vm_compute.
Defined.

(** * Further properties of the code *)

(** ** The ring buffer as a container *)

Section RingBufferMore.
Import ConcurrentRingBuffer.
Context {T : Type} `{!Inhabited T}.

Lemma fifo_run_app (bound : Z) (ops1 ops2 : list (op (T:=T))) (q : list T) :
  fifo_run bound (ops1 ++ ops2) q
  = ((fifo_run bound ops1 q).1 ++ (fifo_run bound ops2 (fifo_run bound ops1 q).2).1,
     (fifo_run bound ops2 (fifo_run bound ops1 q).2).2).
Proof.
  revert q. induction ops1 as [|o ops1 IH]; intros q; simpl.
  - by destruct (fifo_run bound ops2 q).
  - destruct (fifo_step bound o q) as [r q']. rewrite IH.
    destruct (fifo_run bound ops1 q') as [rs q'']. simpl.
    by destruct (fifo_run bound ops2 q'').
Qed.

Lemma fifo_run_pushes (bound : Z) (items q : list T) :
  Z.of_nat (length q + length items) <= bound ->
  fifo_run bound (map Push items) q
  = (map (fun _ => Pushed true) items, q ++ items).
Proof.
  revert q. induction items as [|x items IH]; intros q Hlen; simpl.
  - by rewrite app_nil_r.
  - simpl in Hlen. destruct (Z.ltb_spec (Z.of_nat (length q)) bound); [|lia].
    rewrite IH by (rewrite length_app; simpl; lia).
    by rewrite <- app_assoc.
Qed.

Lemma fifo_run_pops (bound : Z) (items : list T) :
  fifo_run bound (replicate (length items) Pop) items
  = (map (fun x => Popped (Some x)) items, []).
Proof.
  induction items as [|x items IH]; simpl; [done|]. by rewrite IH.
Qed.

(** X1: whatever operations have run on a buffer of capacity C, [head_] and
    [tail_] are indices within [0, C), the slot vector still has C slots and
    the capacity is unchanged. *)
Theorem ring_buffer_indices_in_range (capacity : Z) (ops : list op) :
  0 < capacity < 2 ^ 63 ->
  let rb := (run ops (make (T:=T) capacity)).2 in
  0 <= head_ rb < capacity /\
  0 <= tail_ rb < capacity /\
  length (buffer_ rb) = Z.to_nat capacity /\
  capacity_ rb = capacity.
Proof.
  intros Hc rb. destruct (run_make_wf capacity ops Hc) as [Hwf Hcap].
  fold rb in Hwf, Hcap. destruct Hwf as (_ & Hh & Ht & Hl).
  rewrite Hcap in *. done.
Qed.

(** X2: on a fresh buffer of capacity C, pushing up to C-1 items and then
    popping as many succeeds every time, returns the items in the order they
    were pushed and leaves the buffer empty. *)
Theorem ring_buffer_push_pop_round_trip (capacity : Z) (items : list T) :
  0 < capacity < 2 ^ 63 ->
  Z.of_nat (length items) <= capacity - 1 ->
  let ops := map Push items ++ replicate (length items) Pop in
  (run ops (make capacity)).1
  = map (fun _ => Pushed true) items ++ map (fun x => Popped (Some x)) items /\
  size (run ops (make capacity)).2 = 0.
Proof.
  intros Hc Hlen ops.
  pose proof (run_refines_fifo ops (make capacity) (wf_make capacity Hc)) as Href.
  rewrite contents_make in Href by done. simpl in Href.
  unfold ops in Href at 1. rewrite fifo_run_app in Href.
  rewrite fifo_run_pushes in Href by (simpl; lia). simpl in Href.
  rewrite fifo_run_pops in Href. simpl in Href.
  injection Href as Hres Hcont. split; [done|].
  pose proof (contents_length (run ops (make capacity)).2) as Hl.
  rewrite <- Hcont in Hl. simpl in Hl.
  destruct (run_make_wf capacity ops Hc) as [Hwf _].
  pose proof (size_range _ Hwf). lia.
Qed.

(** X3: in every state reached by operations, an operation that fails
    changes nothing: a [push] returning false and a [pop] returning false
    leave the buffer as it was; a [push] returning true raises [size()] by
    one and a [pop] returning true lowers it by one. *)
Theorem ring_buffer_failed_operation_changes_nothing
    (capacity : Z) (ops : list op) :
  0 < capacity < 2 ^ 63 ->
  let rb := (run ops (make (T:=T) capacity)).2 in
  (forall item, (push item rb).1 = false -> (push item rb).2 = rb) /\
  ((pop rb).1 = None -> (pop rb).2 = rb) /\
  (forall item, (push item rb).1 = true ->
                size (push item rb).2 = size rb + 1) /\
  (forall item, (pop rb).1 = Some item -> size (pop rb).2 = size rb - 1).
Proof.
  intros Hc rb. destruct (run_make_wf capacity ops Hc) as [Hwf _].
  fold rb in Hwf. split; [|split; [|split]].
  - intros item Hf. by rewrite (push_full item rb Hf).
  - unfold pop. by destruct (head_ rb =? tail_ rb).
  - intros item Hok. by apply size_push.
  - intros item Hpop.
    assert (head_ rb <> tail_ rb) as Hne.
    { intros E. rewrite (pop_empty rb E) in Hpop. done. }
    pose proof (size_pop rb Hwf Hne). lia.
Qed.

End RingBufferMore.

Lemma ring_buffer_indices_in_range_witness :
  let rb := (ConcurrentRingBuffer.run
               [ConcurrentRingBuffer.Push 1; ConcurrentRingBuffer.Push 2;
                ConcurrentRingBuffer.Push 3; ConcurrentRingBuffer.Pop;
                ConcurrentRingBuffer.Push 4]
               (ConcurrentRingBuffer.make (T:=Z) 4)).2 in
  0 < 4 < 2 ^ 63 /\
  ConcurrentRingBuffer.head_ rb = 1 /\ ConcurrentRingBuffer.tail_ rb = 0 /\
  0 <= ConcurrentRingBuffer.tail_ rb < 4.
Proof.
  intros rb. split; [lia|]. split; [by vm_compute|]. split; [by vm_compute|].
  apply (ring_buffer_indices_in_range (T:=Z) 4
           [ConcurrentRingBuffer.Push 1; ConcurrentRingBuffer.Push 2;
            ConcurrentRingBuffer.Push 3; ConcurrentRingBuffer.Pop;
            ConcurrentRingBuffer.Push 4]).
  lia.
Defined.

Lemma ring_buffer_push_pop_round_trip_witness :
  let ops := map ConcurrentRingBuffer.Push [5; 6; 7]
             ++ replicate 3 ConcurrentRingBuffer.Pop in
  0 < 4 < 2 ^ 63 /\ Z.of_nat (length [5; 6; 7]) <= 4 - 1 /\
  (ConcurrentRingBuffer.run ops (ConcurrentRingBuffer.make (T:=Z) 4)).1
  = [ConcurrentRingBuffer.Pushed true; ConcurrentRingBuffer.Pushed true;
     ConcurrentRingBuffer.Pushed true;
     ConcurrentRingBuffer.Popped (Some 5); ConcurrentRingBuffer.Popped (Some 6);
     ConcurrentRingBuffer.Popped (Some 7)].
Proof.
  intros ops. split; [lia|]. split; [simpl; lia|].
  apply (ring_buffer_push_pop_round_trip (T:=Z) 4 [5; 6; 7]); simpl; lia.
Defined.

Lemma ring_buffer_failed_operation_changes_nothing_witness :
  let rb := (ConcurrentRingBuffer.run
               [ConcurrentRingBuffer.Push 1; ConcurrentRingBuffer.Push 2]
               (ConcurrentRingBuffer.make (T:=Z) 3)).2 in
  0 < 3 < 2 ^ 63 /\
  (ConcurrentRingBuffer.push 9 rb).1 = false /\
  (ConcurrentRingBuffer.push 9 rb).2 = rb.
Proof.
  intros rb. split; [lia|]. split; [by vm_compute|].
  destruct (ring_buffer_failed_operation_changes_nothing (T:=Z) 3
              [ConcurrentRingBuffer.Push 1; ConcurrentRingBuffer.Push 2])
    as (Hfail & _); [lia|].
  apply Hfail. by vm_compute.
Defined.

(** ** The scheduler's history and averages *)

Section SchedulerMore.
Import NetworkAwareScheduler.

Lemma record_all_smoothed (samples : list NetworkMetrics) (s : t) :
  smoothed_bandwidth_ (record_all samples s)
  = smoothed_bandwidth_ (foldl (fun acc m => update_metrics m acc) s samples) /\
  smoothed_latency_ (record_all samples s)
  = smoothed_latency_ (foldl (fun acc m => update_metrics m acc) s samples).
Proof.
  unfold record_all.
  assert (forall s1 s2,
            smoothed_bandwidth_ s1 = smoothed_bandwidth_ s2 ->
            smoothed_latency_ s1 = smoothed_latency_ s2 ->
            smoothed_bandwidth_
              (foldl (fun acc m => add_metrics_sample m acc) s1 samples)
            = smoothed_bandwidth_
                (foldl (fun acc m => update_metrics m acc) s2 samples) /\
            smoothed_latency_
              (foldl (fun acc m => add_metrics_sample m acc) s1 samples)
            = smoothed_latency_
                (foldl (fun acc m => update_metrics m acc) s2 samples)) as H.
  { induction samples as [|m samples IH]; intros s1 s2 Hb Hl; simpl; [done|].
    apply IH.
    - unfold add_metrics_sample.
      destruct (ConcurrentRingBuffer.push m (metrics_buffer_ s1)).
      unfold update_metrics. simpl. by rewrite Hb.
    - unfold add_metrics_sample.
      destruct (ConcurrentRingBuffer.push m (metrics_buffer_ s1)).
      unfold update_metrics. simpl. by rewrite Hl. }
  by apply H.
Qed.

Lemma record_all_contents (samples : list NetworkMetrics) (s : t) :
  ConcurrentRingBuffer.wf (metrics_buffer_ s) ->
  ConcurrentRingBuffer.contents (metrics_buffer_ (record_all samples s))
  = take (Z.to_nat (ConcurrentRingBuffer.capacity_ (metrics_buffer_ s) - 1))
         (ConcurrentRingBuffer.contents (metrics_buffer_ s) ++ samples).
Proof.
  revert s. induction samples as [|m samples IH]; intros s Hwf.
  - unfold record_all. simpl. rewrite app_nil_r. symmetry. apply take_ge.
    rewrite contents_length. pose proof (size_range _ Hwf). lia.
  - unfold record_all in *. simpl. rewrite IH.
    2:{ rewrite add_metrics_sample_buffer. by apply wf_push. }
    rewrite !add_metrics_sample_buffer, capacity_push.
    pose proof (step_refines_fifo (ConcurrentRingBuffer.Push m) _ Hwf) as Hstep.
    simpl in Hstep.
    pose proof (contents_length (metrics_buffer_ s)) as Hlen.
    pose proof (size_range _ Hwf) as Hsz.
    destruct (ConcurrentRingBuffer.push m (metrics_buffer_ s)) as [ok buf].
    simpl in *.
    destruct (Z.ltb_spec
                (Z.of_nat (length (ConcurrentRingBuffer.contents (metrics_buffer_ s))))
                (ConcurrentRingBuffer.capacity_ (metrics_buffer_ s) - 1))
      as [Hlt|Hge]; injection Hstep as _ <-.
    + by rewrite <- app_assoc.
    + rewrite !take_app_le by lia. done.
Qed.

(** X4: the scheduler's history holds the first 99 samples ever recorded:
    once it is full every later sample is dropped from the history (the
    oldest are kept, nothing is evicted), while the smoothed bandwidth and
    latency go on being updated by every sample, dropped or not. *)
Theorem history_keeps_first_99_samples (samples : list NetworkMetrics) :
  let s := record_all samples make in
  ConcurrentRingBuffer.contents (metrics_buffer_ s) = take 99 samples /\
  smoothed_bandwidth_ s
  = smoothed_bandwidth_ (foldl (fun acc m => update_metrics m acc) make samples) /\
  smoothed_latency_ s
  = smoothed_latency_ (foldl (fun acc m => update_metrics m acc) make samples).
Proof.
  intros s. split; [|apply record_all_smoothed].
  unfold s. rewrite record_all_contents by (apply wf_make; lia).
  change (metrics_buffer_ make)
    with (ConcurrentRingBuffer.make (T:=NetworkMetrics) 100).
  rewrite contents_make by lia. done.
Qed.

End SchedulerMore.

(** ** Inserting chunks *)

Section ChunkTreeMore.
Import ChunkQuadTree.

Lemma insert_all_nodes (ins : list insertion) (tree : t) :
  nodes_ (insert_all ins tree) = nodes_ tree ++ map node_of_insertion ins /\
  root_id_ (insert_all ins tree) = root_id_ tree.
Proof.
  revert tree. induction ins as [|[[[c ts] sz] deps] ins IH]; intros tree.
  - simpl. by rewrite app_nil_r.
  - unfold insert_all in *. simpl.
    destruct (IH (insert_chunk c ts sz deps tree)) as [Hn Hr].
    rewrite Hn, Hr. simpl. by rewrite <- app_assoc.
Qed.

(** X5: the k-th chunk inserted into a fresh tree (counting from 0) is
    stored at node index k+1, index 0 being the root; it keeps its chunk
    id, timestamp, size and dependency list, and it is marked a leaf
    exactly when its dependency list is empty. *)
Theorem inserted_chunk_is_stored_in_order (ins : list insertion) (k : nat)
    (c ts sz : Z) (deps : list Z) :
  ins !! k = Some (c, ts, sz, deps) ->
  let tree := insert_all ins make in
  length (nodes_ tree) = S (length ins) /\
  exists n, nodes_ tree !! S k = Some n /\
    chunk_id n = c /\ timestamp n = ts /\ size n = sz /\ children n = deps /\
    (is_leaf n = true <-> deps = []).
Proof.
  intros Hk tree. destruct (insert_all_nodes ins make) as [Hn _].
  fold tree in Hn. rewrite Hn.
  change (map node_of_insertion ins) with (node_of_insertion <$> ins).
  simpl. rewrite length_fmap. split; [done|].
  exists (node_of_insertion (c, ts, sz, deps)). split.
  - rewrite list_lookup_fmap. unfold insertion in *. by rewrite Hk.
  - simpl. repeat split; try done; by destruct deps.
Qed.

Lemma inserted_chunk_is_stored_in_order_witness :
  let ins := [(7, 0, 10, []); (8, 1, 20, [1])] in
  ins !! 1%nat = Some (8, 1, 20, [1]) /\
  exists n, nodes_ (insert_all ins make) !! 2%nat = Some n /\
    chunk_id n = 8 /\ children n = [1] /\ is_leaf n = false.
Proof.
  intros ins. split; [done|].
  destruct (inserted_chunk_is_stored_in_order ins 1 8 1 20 [1] eq_refl)
    as (_ & n & Hn & Hc & _ & _ & Hd & _).
  exists n. split; [done|]. split; [done|]. split; [done|].
  vm_compute in Hn. by injection Hn as <-.
Defined.

End ChunkTreeMore.

(** ** The packets of a payload *)

Section PacketsMore.
Import QuantumStreamProtocol.

Lemma chunked_length (clock : nat -> Z) (chunk_size : Z)
    (media_data : list byte) (stream_id : Z) (i : Z) (k : nat)
    (rest : list QuantumPacket) :
  1 <= chunk_size -> 0 <= i ->
  chunked clock chunk_size media_data stream_id i k rest ->
  Z.of_nat (length rest)
  = (Z.max 0 (Z.of_nat (length media_data) - i) + chunk_size - 1) / chunk_size.
Proof.
  intros Hc Hi Hch. induction Hch as [i k Hge|i k rest Hlt Hch IH].
  - simpl. rewrite Z.max_l by lia. symmetry. apply Z.div_small. lia.
  - simpl length. rewrite Nat2Z.inj_succ, IH by lia.
    destruct (Z.le_gt_cases (i + chunk_size) (Z.of_nat (length media_data))).
    + rewrite !Z.max_r by lia.
      replace (Z.of_nat (length media_data) - i + chunk_size - 1)
        with (Z.of_nat (length media_data) - (i + chunk_size) + chunk_size - 1
              + 1 * chunk_size) by lia.
      rewrite Z.div_add by lia. lia.
    + rewrite Z.max_l by lia. rewrite Z.max_r by lia.
      rewrite (Z.div_small (0 + chunk_size - 1)) by lia.
      rewrite <- (Z.div_unique _ chunk_size 1
                    (Z.of_nat (length media_data) - i - 1)); lia.
Qed.

(** X6: [generate_packets] returns ceil(S / chunk_size) packets for a
    payload of S bytes; an empty payload gives no packet and a payload of at
    most one chunk gives a single packet holding all of it. *)
Theorem packet_count_is_ceiling (clock : nat -> Z) (indefinite : float -> Z)
    (p : t) (media_data : list byte) (stream_id : Z) :
  Z.of_nat (length media_data) < 2 ^ 63 ->
  let chunk_size := calculate_optimal_chunk_size indefinite p in
  exists packets,
    generate_packets clock indefinite p media_data stream_id = Some packets /\
    Z.of_nat (length packets)
    = (Z.of_nat (length media_data) + chunk_size - 1) / chunk_size /\
    (media_data = [] -> packets = []) /\
    (media_data <> [] -> Z.of_nat (length media_data) <= chunk_size ->
     map data packets = [media_data]).
Proof.
  intros Hlen chunk_size. pose proof (chunk_size_range indefinite p) as Hc.
  fold chunk_size in Hc.
  destruct (generate_packets_chunked clock indefinite p media_data stream_id Hlen)
    as (packets & Hrun & Hch).
  fold chunk_size in Hch.
  pose proof (chunked_length clock chunk_size media_data stream_id 0 0%nat
                packets ltac:(lia) ltac:(lia) Hch) as Hcount.
  rewrite Z.sub_0_r, Z.max_r in Hcount by lia.
  pose proof (chunked_concat clock chunk_size media_data stream_id
                ltac:(lia) 0 0%nat packets ltac:(lia) Hch) as Hcat.
  change (concat (map data packets) = media_data) in Hcat.
  exists packets. split; [done|]. split; [done|]. split.
  - intros ->. simpl in Hcount. rewrite Z.div_small in Hcount by lia.
    destruct packets; [done | simpl in Hcount; lia].
  - intros Hne Hsmall.
    assert (Z.of_nat (length packets) = 1) as Hone.
    { rewrite Hcount.
      rewrite <- (Z.div_unique _ chunk_size 1
                    (Z.of_nat (length media_data) - 1)); [done| |lia].
      destruct media_data; [done|]. simpl length in *. lia. }
    destruct packets as [|pk [|pk' packets]]; simpl in Hone; try lia.
    simpl in Hcat. rewrite app_nil_r in Hcat. simpl. by rewrite Hcat.
Qed.

(** X7: the packet at index j carries the caller's stream id and the
    clock value read for it, its sequence number and its chunk id are both
    j modulo 2^32, and its payload is the bytes of the input from offset
    [j * chunk_size] on, at most [chunk_size] of them and never none. *)
Theorem packet_fields (clock : nat -> Z) (indefinite : float -> Z)
    (p : t) (media_data : list byte) (stream_id : Z) :
  Z.of_nat (length media_data) < 2 ^ 63 ->
  let chunk_size := calculate_optimal_chunk_size indefinite p in
  exists packets,
    generate_packets clock indefinite p media_data stream_id = Some packets /\
    forall (j : nat) (pk : QuantumPacket),
      packets !! j = Some pk ->
      QuantumStreamProtocol.stream_id pk = stream_id /\
      timestamp pk = clock j /\
      sequence_number pk = wrap32 (Z.of_nat j) /\
      chunk_id pk = sequence_number pk /\
      data pk = take (Z.to_nat chunk_size)
                     (drop (j * Z.to_nat chunk_size) media_data) /\
      data pk <> [].
Proof.
  intros Hlen chunk_size. pose proof (chunk_size_range indefinite p) as Hc.
  fold chunk_size in Hc.
  destruct (generate_packets_chunked clock indefinite p media_data stream_id Hlen)
    as (packets & Hrun & Hch).
  fold chunk_size in Hch. exists packets. split; [done|].
  intros j pk Hj.
  destruct (chunked_lookup clock chunk_size media_data stream_id 0 0%nat
              packets j pk Hch Hj) as [Hoff ->].
  rewrite Z.add_0_l in Hoff. simpl. rewrite !Z.add_0_l.
  rewrite Z.div_mul by lia.
  replace (Z.to_nat (Z.of_nat j * chunk_size)) with (j * Z.to_nat chunk_size)%nat
    by lia.
  repeat split; try done.
  intros Hnil. apply (f_equal length) in Hnil.
  rewrite length_take, length_drop in Hnil. simpl in Hnil. lia.
Qed.

End PacketsMore.

Lemma packet_count_is_ceiling_witness :
  Z.of_nat (length (replicate 2500 x00)) < 2 ^ 63 /\
  exists packets,
    QuantumStreamProtocol.generate_packets (fun _ => 0) (fun _ => 0)
      QuantumStreamProtocol.make (replicate 2500 x00) 7 = Some packets /\
    Z.of_nat (length packets) = 3.
Proof.
  split; [by vm_compute|].
  destruct (packet_count_is_ceiling (fun _ => 0) (fun _ => 0)
              QuantumStreamProtocol.make (replicate 2500 x00) 7)
    as (packets & Hrun & Hcount & _); [by vm_compute|].
  exists packets. split; [done|]. rewrite Hcount. by vm_compute.
Defined.

Lemma packet_fields_witness :
  Z.of_nat (length [x01; x02; x03]) < 2 ^ 63 /\
  exists packets,
    QuantumStreamProtocol.generate_packets (fun k => Z.of_nat k + 1000)
      (fun _ => 0) QuantumStreamProtocol.make [x01; x02; x03] 7 = Some packets /\
    forall pk, packets !! 0%nat = Some pk ->
      QuantumStreamProtocol.stream_id pk = 7 /\
      QuantumStreamProtocol.timestamp pk = 1000 /\
      QuantumStreamProtocol.data pk = [x01; x02; x03].
Proof.
  split; [by vm_compute|].
  destruct (packet_fields (fun k => Z.of_nat k + 1000) (fun _ => 0)
              QuantumStreamProtocol.make [x01; x02; x03] 7)
    as (packets & Hrun & Hfields); [by vm_compute|].
  exists packets. split; [done|]. intros pk Hpk.
  destruct (Hfields 0%nat pk Hpk) as (Hs & Ht & _ & _ & Hd & _).
  split; [done|]. split; [done|]. rewrite Hd. by vm_compute.
Defined.

(** ** What the pipeline does with frames *)

Section PipelineMore.
Import ProcessingPipeline.

(** Pushing items one after the other and ignoring the results keeps the
    first ones that fit. *)
Lemma pushes_keep_first {T : Type} `{!Inhabited T} (items : list T)
    (rb : ConcurrentRingBuffer.t T) :
  ConcurrentRingBuffer.wf rb ->
  let rb' := foldl (fun b x => (ConcurrentRingBuffer.push x b).2) rb items in
  ConcurrentRingBuffer.wf rb' /\
  ConcurrentRingBuffer.capacity_ rb' = ConcurrentRingBuffer.capacity_ rb /\
  ConcurrentRingBuffer.contents rb'
  = take (Z.to_nat (ConcurrentRingBuffer.capacity_ rb - 1))
         (ConcurrentRingBuffer.contents rb ++ items).
Proof.
  revert rb. induction items as [|x items IH]; intros rb Hwf; simpl.
  - split; [done|]. split; [done|]. rewrite app_nil_r. symmetry. apply take_ge.
    rewrite contents_length. pose proof (size_range _ Hwf). lia.
  - destruct (IH (ConcurrentRingBuffer.push x rb).2 (wf_push x rb Hwf))
      as (Hwf' & Hcap & Hcont).
    split; [done|]. rewrite Hcap, Hcont, capacity_push. split; [done|].
    pose proof (step_refines_fifo (ConcurrentRingBuffer.Push x) rb Hwf) as Hstep.
    simpl in Hstep.
    pose proof (contents_length rb) as Hlen.
    pose proof (size_range _ Hwf) as Hsz.
    destruct (ConcurrentRingBuffer.push x rb) as [ok buf]. simpl in *.
    destruct (Z.ltb_spec (Z.of_nat (length (ConcurrentRingBuffer.contents rb)))
                (ConcurrentRingBuffer.capacity_ rb - 1)) as [Hlt|Hge];
      injection Hstep as _ <-.
    + by rewrite <- app_assoc.
    + rewrite !take_app_le by lia. done.
Qed.

Lemma process_all_stages (frames : list (list byte)) (p : t)
    (stage0 : Stage) (rest : list Stage) :
  stages_ p = stage0 :: rest ->
  stages_ (foldl (fun acc d => process d acc) p frames)
  = mkStage (processor stage0)
            (foldl (fun b x => (ConcurrentRingBuffer.push x b).2)
                   (buffer stage0) frames)
    :: rest.
Proof.
  revert p stage0. induction frames as [|d frames IH]; intros p stage0 Hs; simpl.
  - rewrite Hs. by destruct stage0.
  - rewrite (IH (process d p)
                (mkStage (processor stage0)
                         (ConcurrentRingBuffer.push d (buffer stage0)).2)); [done|].
    unfold process. rewrite Hs.
    by destruct (ConcurrentRingBuffer.push d (buffer stage0)).
Qed.

(** X8: [process] only ever writes to the buffer of stage 0: after any
    number of calls the pipeline has the same number of stages and the same
    processors, every stage after the first is exactly as it was (its buffer
    receives nothing), and a pipeline without stages stays as it is. *)
Theorem process_touches_only_stage0 (frames : list (list byte)) (p : t) :
  let p' := foldl (fun acc d => process d acc) p frames in
  length (stages_ p') = length (stages_ p) /\
  map processor (stages_ p') = map processor (stages_ p) /\
  drop 1 (stages_ p') = drop 1 (stages_ p) /\
  (stages_ p = [] -> p' = p).
Proof.
  intros p'. destruct (stages_ p) as [|stage0 rest] eqn:Hs.
  - assert (p' = p) as ->.
    { unfold p'. clear p'. induction frames as [|d frames IH]; simpl; [done|].
      unfold process at 2. rewrite Hs. done. }
    by rewrite Hs.
  - unfold p'. rewrite (process_all_stages frames p stage0 rest Hs). done.
Qed.

(** X9: the buffer of stage 0, of capacity C, keeps the first C-1 frames
    handed to [process] and drops every later one: nothing in the source
    takes a frame out again. *)
Theorem stage0_keeps_first_frames (frames : list (list byte)) (p : t)
    (stage0 : Stage) (rest : list Stage) :
  stages_ p = stage0 :: rest ->
  ConcurrentRingBuffer.wf (buffer stage0) ->
  exists stage0',
    stages_ (foldl (fun acc d => process d acc) p frames) = stage0' :: rest /\
    ConcurrentRingBuffer.contents (buffer stage0')
    = take (Z.to_nat (ConcurrentRingBuffer.capacity_ (buffer stage0) - 1))
           (ConcurrentRingBuffer.contents (buffer stage0) ++ frames).
Proof.
  intros Hs Hwf. eexists. split; [by apply process_all_stages|].
  simpl. by apply pushes_keep_first.
Qed.

End PipelineMore.

Lemma stage0_keeps_first_frames_witness :
  let frames := [[x01]; [x02]; [x03]; [x04]; [x05]; [x06]] in
  let p := ProcessingPipeline.setup_video_pipeline ProcessingPipeline.make in
  exists stage0 rest,
    ProcessingPipeline.stages_ p = stage0 :: rest /\
    exists stage0',
      ProcessingPipeline.stages_
        (foldl (fun acc d => ProcessingPipeline.process d acc) p frames)
      = stage0' :: rest /\
      ConcurrentRingBuffer.contents (ProcessingPipeline.buffer stage0')
      = [[x01]; [x02]; [x03]; [x04]].
Proof.
  intros frames p. eexists _, _. split; [reflexivity|].
  destruct (stage0_keeps_first_frames frames p _ _ eq_refl)
    as (stage0' & Hs & Hc).
  { apply wf_make. lia. }
  exists stage0'. split; [done|]. rewrite Hc. by vm_compute.
Defined.

(** ** The traversal on an arbitrary node table *)

Section TraversalMore.
Import ChunkQuadTree.
Variable nodes : list Node.

(** Every dependency names a node of the table. *)
Hypothesis children_in_range :
  forall n d, n ∈ nodes -> d ∈ children n -> 0 <= d < Z.of_nat (length nodes).

Let leaf_id (c : Z) : Prop :=
  exists n, n ∈ nodes /\ is_leaf n = true /\ chunk_id n = c.

Let extends (st st1 : list bool * list Z) : Prop :=
  length st1.1 = length st.1 /\
  exists ext, st1.2 = st.2 ++ ext /\ Forall leaf_id ext.

Lemma extends_refl st : extends st st.
Proof. split; [done|]. exists []. by rewrite app_nil_r. Qed.

Lemma extends_trans st1 st2 st3 :
  extends st1 st2 -> extends st2 st3 -> extends st1 st3.
Proof.
  intros [Hl1 (e1 & He1 & Hf1)] [Hl2 (e2 & He2 & Hf2)]. split; [congruence|].
  exists (e1 ++ e2). rewrite He2, He1, <- app_assoc. split; [done|].
  by apply Forall_app.
Qed.

Lemma for_each_in_range (body : Z -> list bool * list Z -> outcome (list bool * list Z))
    (deps : list Z) (st : list bool * list Z) :
  (forall dep st0, dep ∈ deps -> length st0.1 = length nodes ->
     body dep st0 <> OutOfRange /\
     forall st1, body dep st0 = Done st1 -> extends st0 st1) ->
  length st.1 = length nodes ->
  for_each body deps st <> OutOfRange /\
  forall st1, for_each body deps st = Done st1 -> extends st st1.
Proof.
  revert st. induction deps as [|dep deps IH]; intros st Hbody Hlen; simpl.
  - split; [done|]. intros st1 [= <-]. apply extends_refl.
  - destruct (Hbody dep st ltac:(left) Hlen) as [Hnr Hext].
    destruct (body dep st) as [st'| |] eqn:Hb; [|done|done].
    specialize (Hext st' eq_refl).
    destruct (IH st') as [Hnr' Hext'].
    { intros d st0 Hd. apply Hbody. by right. }
    { destruct Hext as [Hl _]. congruence. }
    split; [done|]. intros st1 H1. eapply extends_trans; [done|]. by apply Hext'.
Qed.

Lemma dfs_in_range (fuel : nat) (node_id : Z) (st : list bool * list Z) :
  0 <= node_id < Z.of_nat (length nodes) ->
  length st.1 = length nodes ->
  dfs fuel nodes node_id st <> OutOfRange /\
  forall st1, dfs fuel nodes node_id st = Done st1 -> extends st st1.
Proof.
  revert node_id st. induction fuel as [|fuel IH]; intros node_id st Hid Hlen.
  { done. }
  simpl. destruct (st.1 !! Z.to_nat node_id) as [[|]|] eqn:Hv.
  - split; [done|]. intros st1 [= <-]. apply extends_refl.
  - destruct (nodes !! Z.to_nat node_id) as [n|] eqn:Hn.
    2:{ apply lookup_ge_None in Hn. lia. }
    destruct (for_each_in_range (dfs fuel nodes) (children n)
                (<[Z.to_nat node_id := true]> st.1, st.2)) as [Hnr Hext].
    { intros dep st0 Hdep Hl0. apply IH; [|done].
      apply (children_in_range n); [|done]. by eapply list_elem_of_lookup_2. }
    { simpl. by rewrite length_insert. }
    destruct (for_each _ _ _) as [[visited sequence]| |]; [|done|done].
    split; [done|]. intros st1 [= <-].
    destruct (Hext _ eq_refl) as [Hl (ext & He & Hf)]. simpl in *.
    rewrite length_insert in Hl. split; [done|].
    destruct (is_leaf n) eqn:Hleaf.
    + exists (ext ++ [chunk_id n]). simpl. rewrite He, <- app_assoc.
      split; [done|]. apply Forall_app. split; [done|].
      apply Forall_singleton. exists n. split; [|done].
      by eapply list_elem_of_lookup_2.
    + exists ext. done.
  - apply lookup_ge_None in Hv. lia.
Qed.

(** X10: on every node table whose dependency indices name nodes of the
    table, cyclic or not, the traversal from an existing root returns: no
    node is entered twice, so the recursion is never deeper than the number
    of nodes.  The sequence it returns holds only chunk ids of leaf nodes. *)
Theorem traversal_returns_leaf_ids (target_bitrate : Z) (root : Z) :
  0 <= root < Z.of_nat (length nodes) ->
  exists sequence,
    get_optimal_chunk_sequence target_bitrate (mk nodes root) = Done sequence /\
    forall c, c ∈ sequence ->
      exists n, n ∈ nodes /\ is_leaf n = true /\ chunk_id n = c.
Proof.
  intros Hroot.
  pose proof (get_optimal_chunk_sequence_budget target_bitrate (mk nodes root))
    as Hfuel.
  unfold get_optimal_chunk_sequence in *. cbn [nodes_ root_id_] in *.
  destruct (dfs_in_range (S (length nodes)) root
              (replicate (length nodes) false, [])) as [Hnr Hext];
    [done | by cbn [fst]; rewrite length_replicate |].
  destruct (dfs (S (length nodes)) nodes root _) as [[visited sequence]| |];
    [|done|done].
  exists sequence. split; [done|].
  destruct (Hext _ eq_refl) as [_ (ext & He & Hf)]. simpl in He. subst sequence.
  intros c Hc. by apply (proj1 (Forall_forall _ _) Hf).
Qed.

End TraversalMore.

(** A table with a dependency cycle between nodes 1 and 2: the traversal
    returns the one leaf. *)
Lemma traversal_returns_leaf_ids_witness :
  let nodes := [ChunkQuadTree.mkNode 0 0 0 [1; 3] false;
                ChunkQuadTree.mkNode 11 0 0 [2] false;
                ChunkQuadTree.mkNode 12 0 0 [1] false;
                ChunkQuadTree.mkNode 13 0 0 [] true] in
  (forall n d, n ∈ nodes -> d ∈ ChunkQuadTree.children n ->
               0 <= d < Z.of_nat (length nodes)) /\
  0 <= 0 < Z.of_nat (length nodes) /\
  exists sequence,
    ChunkQuadTree.get_optimal_chunk_sequence 0 (ChunkQuadTree.mk nodes 0)
    = ChunkQuadTree.Done sequence /\
    forall c, c ∈ sequence ->
      exists n, n ∈ nodes /\ ChunkQuadTree.is_leaf n = true /\
                ChunkQuadTree.chunk_id n = c.
Proof.
  intros nodes.
  assert (forall n d, n ∈ nodes -> d ∈ ChunkQuadTree.children n ->
                      0 <= d < Z.of_nat (length nodes)) as Hrange.
  { intros n d Hn Hd. unfold nodes in Hn.
    repeat (apply elem_of_cons in Hn as [->|Hn]); simpl in Hd;
      repeat (apply elem_of_cons in Hd as [->|Hd]); simpl; try lia;
      try (by apply elem_of_nil in Hd); by apply elem_of_nil in Hn. }
  split; [done|]. split; [simpl; lia|].
  apply (traversal_returns_leaf_ids nodes Hrange 0 0). simpl. lia.
Defined.

(** ** The linked queue, node by node *)

Section QueueNodes.
Import LockFreeMPSCQueueNodes.
Context {Task : Type}.
Implicit Types (h : gmap positive (Node Task)) (q : t Task).
Implicit Types (cells : list (positive * Task)) (ts : list Task).

Lemma linked_last h l cells last :
  linked h l cells last -> exists n, h !! last = Some n /\ next n = None.
Proof.
  revert l. induction cells as [|[l' t] cells IH]; intros l; simpl.
  - by intros [-> H].
  - intros (_ & _ & H). by apply (IH l').
Qed.

(** A chain is untouched by changes to other nodes, and by changes to the
    task of its first node. *)
Lemma linked_agree h h' l cells last :
  linked h l cells last ->
  (forall x, x = l \/ x ∈ map fst cells ->
             next <$> h' !! x = next <$> h !! x) ->
  (forall x, x ∈ map fst cells -> task <$> h' !! x = task <$> h !! x) ->
  linked h' l cells last.
Proof.
  revert l. induction cells as [|[l' t] cells IH]; intros l; simpl.
  - intros [-> (n & Hn & Hnext)] Hnx _. split; [done|].
    specialize (Hnx last (or_introl eq_refl)). rewrite Hn in Hnx. simpl in Hnx.
    destruct (h' !! last) as [n'|]; [|done]. exists n'. split; [done|].
    simpl in Hnx. congruence.
  - intros ((n & Hn & Hnext) & (n' & Hn' & Htask) & Hrest) Hnx Htk.
    split; [|split].
    + specialize (Hnx l (or_introl eq_refl)). rewrite Hn in Hnx.
      destruct (h' !! l) as [m|]; [|done]. exists m. split; [done|].
      simpl in Hnx. congruence.
    + specialize (Htk l' ltac:(left)). rewrite Hn' in Htk.
      destruct (h' !! l') as [m|]; [|done]. exists m. split; [done|].
      simpl in Htk. congruence.
    + apply IH; [done| |].
      * intros x [->|Hx]; apply Hnx; right; [left | by right].
      * intros x Hx. apply Htk. by right.
Qed.

Lemma linked_push h l cells last (new_node : positive) (pushed : Task) :
  linked h l cells last ->
  h !! new_node = None ->
  linked (alter (fun n => mkNode (Some new_node) (task n)) last
                (<[new_node := mkNode None (Some pushed)]> h))
         l (cells ++ [(new_node, pushed)]) new_node.
Proof.
  intros Hl Hnew.
  assert (last <> new_node) as Hne.
  { intros ->. destruct (linked_last _ _ _ _ Hl) as (n & Hn & _). congruence. }
  revert l Hl. induction cells as [|[l' t] cells IH]; intros l; simpl.
  - intros [-> (n & Hn & Hnext)]. split; [|split].
    + exists (mkNode (Some new_node) (task n)). split; [|done].
      by rewrite lookup_alter_eq, lookup_insert_ne, Hn.
    + exists (mkNode None (Some pushed)). split; [|done].
      by rewrite lookup_alter_ne, lookup_insert_eq.
    + split; [done|]. exists (mkNode None (Some pushed)). split; [|done].
      by rewrite lookup_alter_ne, lookup_insert_eq.
  - intros ((n & Hn & Hnext) & (n' & Hn' & Htask) & Hrest).
    split; [|split].
    + exists n. split; [|done].
      assert (l <> last) as Hll.
      { intros ->. destruct (linked_last _ _ _ _ Hrest) as (m & Hm & Hmn).
        congruence. }
      rewrite lookup_alter_ne, lookup_insert_ne by congruence. done.
    + destruct (decide (l' = last)) as [->|Hl'].
      * exists (mkNode (Some new_node) (task n')). split; [|done].
        by rewrite lookup_alter_eq, lookup_insert_ne, Hn'.
      * exists n'. split; [|done].
        rewrite lookup_alter_ne, lookup_insert_ne by congruence. done.
    + by apply IH.
Qed.

Lemma holds_make : holds (make (Task:=Task)) [].
Proof.
  exists []. unfold make. simpl. split; [done|]. split.
  - apply NoDup_singleton.
  - split.
    + split; [done|]. eexists. split; [apply lookup_singleton_eq | done].
    + rewrite dom_singleton_L. set_solver.
Qed.

Lemma holds_push q ts (pushed : Task) :
  holds q ts -> holds (push pushed q) (ts ++ [pushed]).
Proof.
  intros (cells & Hts & Hnd & Hl & Hdom).
  assert (heap q !! alloc (heap q) = None) as Hfresh.
  { apply not_elem_of_dom. apply is_fresh. }
  assert (alloc (heap q) ∉ head_ q :: map fst cells) as Hnotin.
  { intros Hin. apply (elem_of_list_to_set (C:=gset positive)) in Hin.
    rewrite <- Hdom in Hin. by apply is_fresh in Hin. }
  exists (cells ++ [(alloc (heap q), pushed)]). unfold push. simpl.
  split; [by rewrite map_app, Hts|]. split; [|split].
  - rewrite map_app. simpl. rewrite app_comm_cons.
    apply NoDup_app. split; [done|]. split; [|apply NoDup_singleton].
    intros x Hx Hx'. apply list_elem_of_singleton in Hx'. by subst.
  - by apply linked_push.
  - rewrite dom_alter_L, dom_insert_L, Hdom, map_app. simpl.
    rewrite list_to_set_app_L. simpl. set_solver.
Qed.

Lemma pop_empty_nodes q : holds q [] -> pop q = (None, q).
Proof.
  intros (cells & Hts & _ & Hl & _). destruct cells; [|done].
  simpl in Hl. destruct Hl as [_ (n & Hn & Hnext)].
  unfold pop. by rewrite Hn, Hnext.
Qed.

Lemma holds_pop q (t0 : Task) ts :
  holds q (t0 :: ts) -> (pop q).1 = Some t0 /\ holds (pop q).2 ts.
Proof.
  intros (cells & Hts & Hnd & Hl & Hdom).
  destruct cells as [|[l' t'] cells]; [done|].
  simpl in Hts. injection Hts as -> Hts.
  simpl in Hl. destruct Hl as ((n & Hn & Hnext) & (n' & Hn' & Htask) & Hrest).
  simpl in Hnd. apply NoDup_cons in Hnd as [Hhead Hnd].
  apply NoDup_cons in Hnd as [Hl' Hnd].
  assert (head_ q <> l') as Hne by (intros E; apply Hhead; rewrite E; left).
  unfold pop. rewrite Hn, Hnext, Hn'. simpl. split; [done|].
  exists cells. simpl. split; [done|]. split; [|split].
  - by apply NoDup_cons.
  - apply (linked_agree (heap q)); [done| |].
    + intros x Hx.
      assert (x <> head_ q) as Hxh.
      { intros E. subst x. destruct Hx as [E|Hx]; [done|]. apply Hhead. by right. }
      rewrite lookup_delete_ne by done.
      destruct (decide (x = l')) as [->|Hxl].
      * rewrite lookup_alter_eq. by destruct (heap q !! l').
      * by rewrite lookup_alter_ne.
    + intros x Hx.
      assert (x <> head_ q) as Hxh by (intros E; subst x; apply Hhead; by right).
      assert (x <> l') as Hxl by (intros E; subst x; done).
      by rewrite lookup_delete_ne, lookup_alter_ne.
  - rewrite dom_delete_L, dom_alter_L, Hdom. simpl.
    assert (head_ q ∉ (list_to_set (map fst cells) : gset positive)) as Hh'.
    { rewrite elem_of_list_to_set. intros Hin. apply Hhead. by right. }
    set_solver.
Qed.

Lemma run_nodes_refines (ops : list (LockFreeMPSCQueue.op Task)) q ts :
  holds q ts ->
  (run ops q).1 = (LockFreeMPSCQueue.run ops ts).1 /\
  holds (run ops q).2 (LockFreeMPSCQueue.run ops ts).2.
Proof.
  revert q ts. induction ops as [|[pushed|] ops IH]; intros q ts Hq; simpl.
  - done.
  - apply IH. by apply holds_push.
  - destruct ts as [|t0 ts]; simpl.
    + rewrite (pop_empty_nodes q Hq).
      destruct (IH q [] Hq) as [Hr Hh].
      destruct (run ops q), (LockFreeMPSCQueue.run ops []). simpl in *.
      by rewrite Hr.
    + destruct (holds_pop q t0 ts Hq) as [Hr Hh].
      destruct (pop q) as [r q']. simpl in *. subst r.
      destruct (IH q' ts Hh) as [Hr' Hh'].
      destruct (run ops q'), (LockFreeMPSCQueue.run ops ts). simpl in *.
      by rewrite Hr'.
Qed.

Lemma holds_size q ts : holds q ts -> size (heap q) = S (length ts).
Proof.
  intros (cells & Hts & Hnd & _ & Hdom).
  rewrite <- size_dom, Hdom, size_list_to_set by done.
  simpl. by rewrite <- Hts, !length_map.
Qed.

(** X11: whatever sequence of [push] and [pop] calls runs on a fresh
    queue, each [pop] returns the oldest task pushed and not yet popped, or
    [nullptr] when there is none: the linked nodes behave as a first-in
    first-out list.  The nodes allocated and not deleted are always one more
    than the tasks waiting, and a [pop] of an empty queue changes nothing. *)
Theorem linked_queue_is_fifo (ops : list (LockFreeMPSCQueue.op Task)) :
  let q := (run ops (make (Task:=Task))).2 in
  (run ops make).1 = (LockFreeMPSCQueue.run ops LockFreeMPSCQueue.make).1 /\
  size (heap q)
  = S (length (LockFreeMPSCQueue.run ops LockFreeMPSCQueue.make).2) /\
  ((LockFreeMPSCQueue.run ops LockFreeMPSCQueue.make).2 = [] ->
   pop q = (None, q)).
Proof.
  intros q.
  destruct (run_nodes_refines ops make [] holds_make) as [Hr Hh].
  fold q in Hh. split; [done|]. split; [by apply holds_size|].
  intros Hempty. apply pop_empty_nodes.
  change (@LockFreeMPSCQueue.make Task) with (@nil Task).
  by rewrite <- Hempty.
Qed.

End QueueNodes.

(** ** Workers *)

Section WorkerFacts.
Import QuantumIOCore.
Context {Task Gen : Type} (dist : Gen -> Z * Gen).

Lemma placement_ignores_occupancy_aux (core : t Task) (gen : Gen) :
  get_optimal_queue dist core gen = dist (dist gen).2 /\
  forall func,
    submit dist func core gen
    = (mk (NUM_IO_THREADS core)
          (alter (LockFreeMPSCQueue.push func)
                 (Z.to_nat (dist (dist gen).2).1) (task_queues_ core))
          (running_ core),
       (dist (dist gen).2).2).
Proof.
  assert (get_optimal_queue dist core gen = dist (dist gen).2) as Hsel.
  { unfold get_optimal_queue.
    destruct (dist gen) as [q1 gen1]. simpl.
    destruct (dist gen1) as [q2 gen2]. done. }
  split; [done|]. intros func. unfold submit. rewrite Hsel.
  by destruct (dist (dist gen).2).
Qed.

Lemma io_worker_running (passes : nat) (queue_idx : Z) (core : t Task)
    (ts : list Task) :
  running_ core = true ->
  task_queues_ core !! Z.to_nat queue_idx = Some ts ->
  io_worker passes queue_idx core
  = (take passes ts,
     mk (NUM_IO_THREADS core)
        (<[Z.to_nat queue_idx := drop passes ts]> (task_queues_ core))
        true).
Proof.
  revert core ts. induction passes as [|passes IH]; intros core ts Hrun Hq.
  - simpl. rewrite drop_0, list_insert_id by done. destruct core. simpl in *.
    by subst.
  - simpl. rewrite Hrun.
    rewrite (list_lookup_total_correct _ _ _ Hq).
    pose proof (lookup_lt_Some _ _ _ Hq) as Hlt.
    destruct ts as [|t0 ts]; simpl.
    + rewrite (IH _ []); [|done|]; simpl.
      * by rewrite take_nil, drop_nil, list_insert_insert_eq.
      * by rewrite list_lookup_insert_eq.
    + rewrite (IH _ ts); [|done|]; simpl.
      * by rewrite list_insert_insert_eq.
      * by rewrite list_lookup_insert_eq.
Qed.

(** X12: a worker whose core is running runs the tasks of its own queue in
    the order they were pushed, one per pass, and touches no other queue; a
    worker whose core has been shut down runs nothing, so tasks still queued
    at shutdown, and tasks submitted after it, are never run. *)
Theorem worker_runs_own_queue_in_order (passes : nat) (queue_idx : Z)
    (core : t Task) (ts : list Task) :
  task_queues_ core !! Z.to_nat queue_idx = Some ts ->
  (running_ core = true ->
   (io_worker passes queue_idx core).1 = take passes ts /\
   task_queues_ (io_worker passes queue_idx core).2 !! Z.to_nat queue_idx
   = Some (drop passes ts) /\
   forall i, i <> Z.to_nat queue_idx ->
     task_queues_ (io_worker passes queue_idx core).2 !! i
     = task_queues_ core !! i) /\
  (io_worker passes queue_idx (shutdown core) = ([], shutdown core)) /\
  (forall func gen,
     io_worker passes queue_idx (submit dist func (shutdown core) gen).1
     = ([], (submit dist func (shutdown core) gen).1)).
Proof.
  intros Hq. split; [|split].
  - intros Hrun. rewrite (io_worker_running passes queue_idx core ts Hrun Hq).
    simpl. split; [done|]. split.
    + apply list_lookup_insert_eq. by eapply lookup_lt_Some.
    + intros i Hi. by rewrite list_lookup_insert_ne.
  - by destruct passes.
  - intros func gen.
    assert (running_ (submit dist func (shutdown core) gen).1 = false) as Hoff.
    { unfold submit. by destruct (get_optimal_queue dist (shutdown core) gen). }
    destruct passes; simpl; [done|]. by rewrite Hoff.
Qed.

(** X13: on a running core, a submitted task lands behind the tasks already
    waiting in the queue of the second index drawn, and the worker of that
    queue runs those tasks and then the submitted one. *)
Theorem submitted_task_is_run_in_turn (func : Task) (core : t Task) (gen : Gen)
    (ts : list Task) :
  let queue_idx := (dist (dist gen).2).1 in
  running_ core = true ->
  0 <= queue_idx ->
  task_queues_ core !! Z.to_nat queue_idx = Some ts ->
  task_queues_ (submit dist func core gen).1 !! Z.to_nat queue_idx
  = Some (ts ++ [func]) /\
  (io_worker (S (length ts)) queue_idx (submit dist func core gen).1).1
  = ts ++ [func].
Proof.
  intros queue_idx Hrun Hidx Hq. unfold queue_idx in *. clear queue_idx.
  destruct (placement_ignores_occupancy_aux core gen) as [Hsel Hsub].
  assert (task_queues_ (submit dist func core gen).1
            !! Z.to_nat (dist (dist gen).2).1
          = Some (ts ++ [func])) as Hq'.
  { rewrite Hsub. cbn [fst task_queues_].
    rewrite list_lookup_alter_eq. unfold LockFreeMPSCQueue.t in *.
    by rewrite Hq. }
  split; [done|].
  rewrite (io_worker_running _ _ _ (ts ++ [func])); [|by rewrite Hsub|done].
  simpl. apply take_ge. rewrite length_app. simpl. lia.
Qed.

End WorkerFacts.

(** Two queues, queue 1 holding tasks 5 and 6: two passes of worker 1 run
    both, in that order. *)
Lemma worker_runs_own_queue_in_order_witness :
  let core := QuantumIOCore.mk (Task:=nat) 2 [[]; [5; 6]%nat] true in
  QuantumIOCore.task_queues_ core !! Z.to_nat 1 = Some [5; 6]%nat /\
  QuantumIOCore.running_ core = true /\
  (QuantumIOCore.io_worker 2 1 core).1 = [5; 6]%nat.
Proof.
  intros core. split; [done|]. split; [done|].
  destruct (worker_runs_own_queue_in_order
              (fun g : nat => (Z.of_nat g mod 2, S g)) 2 1 core [5; 6]%nat
              eq_refl) as (Hrun & _).
  destruct (Hrun eq_refl) as (Hran & _). done.
Defined.

(** The generator draws index 0, then index 1; queue 1 already holds task
    5, and worker 1 runs 5 and then the submitted 42. *)
Lemma submitted_task_is_run_in_turn_witness :
  let dist := fun g : nat => (Z.of_nat g mod 2, S g) in
  let core := QuantumIOCore.mk (Task:=nat) 2 [[]; [5%nat]] true in
  QuantumIOCore.running_ core = true /\
  0 <= (dist (dist 0%nat).2).1 /\
  QuantumIOCore.task_queues_ core !! Z.to_nat (dist (dist 0%nat).2).1
  = Some [5%nat] /\
  (QuantumIOCore.io_worker 2 1 (QuantumIOCore.submit dist 42%nat core 0%nat).1).1
  = [5; 42]%nat.
Proof.
  intros dist core. split; [done|]. split; [by vm_compute|]. split; [done|].
  destruct (submitted_task_is_run_in_turn dist 42%nat core 0%nat [5%nat])
    as (_ & Hran); [done | by vm_compute | done |].
  exact Hran.
Defined.

(** ** Frames through the media engine *)

Section EngineFacts.
Import QuantumMediaEngine.
Context {Gen : Type} (dist : Gen -> Z * Gen).

(** X14: [process_video_frame] only queues a closure, it does not touch a
    pipeline itself; when the worker of the chosen queue runs it, the frame
    is handed to [process] of the video pipeline and the audio pipeline
    stays as it is. *)
Theorem video_frame_reaches_video_pipeline (frame_data : list byte) (e : t)
    (gen : Gen) :
  let queue_idx := (dist (dist gen).2).1 in
  let e1 := (process_video_frame dist frame_data e gen).1 in
  let e2 := io_worker 1 queue_idx e1 in
  QuantumIOCore.running_ (io_core_ e) = true ->
  QuantumIOCore.task_queues_ (io_core_ e) !! Z.to_nat queue_idx = Some [] ->
  video_pipeline_ e1 = video_pipeline_ e /\
  audio_pipeline_ e1 = audio_pipeline_ e /\
  video_pipeline_ e2
  = ProcessingPipeline.process frame_data (video_pipeline_ e) /\
  audio_pipeline_ e2 = audio_pipeline_ e /\
  QuantumIOCore.task_queues_ (io_core_ e2) !! Z.to_nat queue_idx = Some [].
Proof.
  intros queue_idx e1 e2 Hrun Hq. unfold e2, e1, queue_idx in *.
  clear e1 e2 queue_idx.
  destruct (placement_ignores_occupancy_aux dist (io_core_ e) gen) as [_ Hsub].
  unfold process_video_frame. rewrite Hsub. cbn [fst].
  split; [done|]. split; [done|].
  unfold io_worker. cbn [io_core_].
  rewrite (io_worker_running 1 _ _ [VideoFrame frame_data]); [|done|].
  2:{ cbn [QuantumIOCore.task_queues_]. rewrite list_lookup_alter_eq.
      unfold LockFreeMPSCQueue.t in *. by rewrite Hq. }
  simpl. split; [done|]. split; [done|].
  rewrite list_lookup_insert_eq; [done|].
  rewrite length_alter. by eapply lookup_lt_Some.
Qed.

End EngineFacts.

(** A one-worker engine: the frame ends in the first buffer of the video
    pipeline. *)
Lemma video_frame_reaches_video_pipeline_witness :
  let dist := fun g : nat => (0, S g) in
  let e := QuantumMediaEngine.make 1 in
  QuantumIOCore.running_ (QuantumMediaEngine.io_core_ e) = true /\
  QuantumIOCore.task_queues_ (QuantumMediaEngine.io_core_ e) !! Z.to_nat 0
  = Some [] /\
  QuantumMediaEngine.video_pipeline_
    (QuantumMediaEngine.io_worker 1 0
       (QuantumMediaEngine.process_video_frame dist [x01; x02] e 0%nat).1)
  = ProcessingPipeline.process [x01; x02] (QuantumMediaEngine.video_pipeline_ e).
Proof.
  intros dist e. split; [done|]. split; [done|].
  destruct (video_frame_reaches_video_pipeline dist [x01; x02] e 0%nat)
    as (_ & _ & Hv & _); [done | done |].
  exact Hv.
Defined.

(** ** Edge selection *)

Section EdgeFacts.
Import QuantumEdgeManager.
Variable iteration : gmap string EdgeNode -> list (string * EdgeNode).
Context {Gen : Type} (uniform_real : float -> Gen -> float * Gen).

(** The range-for visits the entries of the map, in whatever order. *)
Hypothesis iteration_entries :
  forall (m : gmap string EdgeNode) node_id node,
    (node_id, node) ∈ iteration m <-> m !! node_id = Some node.

Let spare (required_bandwidth : float) (node : EdgeNode) : bool :=
  PrimFloat.ltb required_bandwidth (capacity node - current_load node)%float.

Lemma candidates_loop (required_bandwidth : float)
    (entries : list (string * EdgeNode)) (acc : list (string * float))
    (node_id : string) :
  node_id ∈ map fst
    (foldl (fun acc '(node_id, node) =>
              if PrimFloat.ltb required_bandwidth
                   (capacity node - current_load node)%float
              then acc ++ [(node_id,
                            (1.0 / (latency node + 1)
                             * (capacity node - current_load node))%float)]
              else acc)
           acc entries)
  <-> node_id ∈ map fst acc \/
      exists node, (node_id, node) ∈ entries /\
                   spare required_bandwidth node = true.
Proof.
  revert acc. induction entries as [|[i n] entries IH]; intros acc; simpl.
  - split; [by left|]. intros [H|(node & H & _)]; [done|].
    by apply elem_of_nil in H.
  - rewrite IH. clear IH.
    destruct (PrimFloat.ltb required_bandwidth (capacity n - current_load n))
      eqn:Hs.
    + rewrite map_app. simpl. rewrite elem_of_app, list_elem_of_singleton.
      split.
      * intros [[H| ->]|(node & H & Hsp)].
        -- by left.
        -- right. exists n. split; [left|done].
        -- right. exists node. split; [by right|done].
      * intros [H|(node & H & Hsp)]; [by left; left|].
        apply elem_of_cons in H as [[= -> ->]|H]; [by left; right|].
        right. by exists node.
    + split.
      * intros [H|(node & H & Hsp)]; [by left|].
        right. exists node. split; [by right|done].
      * intros [H|(node & H & Hsp)]; [by left|].
        apply elem_of_cons in H as [[= -> ->]|H].
        -- unfold spare in Hsp. congruence.
        -- right. by exists node.
Qed.

Lemma candidates_spec (required_bandwidth : float) (m : t) (node_id : string) :
  node_id ∈ map fst (candidates iteration required_bandwidth m)
  <-> exists node, nodes_ m !! node_id = Some node /\
                   spare required_bandwidth node = true.
Proof.
  unfold candidates. rewrite candidates_loop. simpl. split.
  - intros [H|(node & H & Hsp)]; [by apply elem_of_nil in H|].
    exists node. split; [by apply iteration_entries|done].
  - intros (node & H & Hsp). right. exists node.
    split; [by apply iteration_entries|done].
Qed.

Lemma pick_candidate (random_value cumulative : float)
    (cands : list (string * float)) (node_id : string) :
  pick random_value cumulative cands = Some node_id ->
  node_id ∈ map fst cands.
Proof.
  revert cumulative. induction cands as [|[i sc] cands IH]; intros c; simpl.
  - done.
  - destruct (PrimFloat.leb random_value (c + sc)).
    + intros [= ->]. left.
    + intros H. right. by apply (IH _ H).
Qed.

Lemma select_result (client_region : string) (required_bandwidth : float)
    (m : t) (gen : Gen) :
  let r := (select_optimal_node iteration uniform_real client_region
              required_bandwidth m gen).1 in
  (candidates iteration required_bandwidth m = [] /\ r = EmptyString) \/
  r ∈ map fst (candidates iteration required_bandwidth m).
Proof.
  unfold select_optimal_node.
  destruct (candidates iteration required_bandwidth m) as [|c cands] eqn:Hc.
  - by left.
  - right. destruct (uniform_real _ gen) as [random_value gen']. cbn [fst].
    destruct (pick random_value 0 (c :: cands)) as [node_id|] eqn:Hp.
    + by apply (pick_candidate _ _ _ _ Hp).
    + destruct (last (c :: cands)) as [c'|] eqn:Hl.
      * apply list_elem_of_fmap. exists c'. split; [done|].
        apply last_Some in Hl as [l' ->]. apply elem_of_app. right. left.
      * by apply last_None in Hl.
Qed.

(** X15: [select_optimal_node] never returns a node without enough spare
    capacity: when no stored node has [capacity - current_load] above the
    required bandwidth the result is the empty string, and otherwise the
    result is the id of a stored node that has, whatever the random draw
    and the order in which the map is visited. *)
Theorem selected_node_has_spare_capacity (client_region : string)
    (required_bandwidth : float) (m : t) (gen : Gen) :
  let r := (select_optimal_node iteration uniform_real client_region
              required_bandwidth m gen).1 in
  ((forall node_id node, nodes_ m !! node_id = Some node ->
      PrimFloat.ltb required_bandwidth (capacity node - current_load node)
      = false) ->
   r = EmptyString) /\
  ((exists node_id node, nodes_ m !! node_id = Some node /\
      PrimFloat.ltb required_bandwidth (capacity node - current_load node)
      = true) ->
   exists node, nodes_ m !! r = Some node /\
      PrimFloat.ltb required_bandwidth (capacity node - current_load node)
      = true).
Proof.
  intros r.
  destruct (select_result client_region required_bandwidth m gen)
    as [[Hnil Hr]|Hin]; fold r in Hr || fold r in Hin.
  - split; [done|]. intros (node_id & node & Hn & Hsp).
    assert (node_id ∈ map fst (candidates iteration required_bandwidth m)) as H.
    { apply candidates_spec. by exists node. }
    rewrite Hnil in H. by apply elem_of_nil in H.
  - apply candidates_spec in Hin as (node & Hn & Hsp). split.
    + intros Hnone. specialize (Hnone r node Hn). unfold spare in Hsp.
      congruence.
    + intros _. by exists node.
Qed.


End EdgeFacts.

(** Two nodes of capacity 100, "a" loaded with 90 and "b" with 10; a stream
    of 50 is routed to "b". *)
Lemma selected_node_has_spare_capacity_witness :
  let a := QuantumEdgeManager.mkEdgeNode "a" "10.0.0.1" 5 100 90 [] in
  let b := QuantumEdgeManager.mkEdgeNode "b" "10.0.0.2" 20 100 10 [] in
  let m := QuantumEdgeManager.add_node b
             (QuantumEdgeManager.add_node a QuantumEdgeManager.make) in
  let r := (QuantumEdgeManager.select_optimal_node map_to_list
              (fun total (g : unit) => (total, g)) "local" 50 m tt).1 in
  (forall (m : gmap string QuantumEdgeManager.EdgeNode) node_id node,
     (node_id, node) ∈ map_to_list m <-> m !! node_id = Some node) /\
  r = "b" /\
  exists node, QuantumEdgeManager.nodes_ m !! r = Some node /\
    PrimFloat.ltb 50 (QuantumEdgeManager.capacity node
                      - QuantumEdgeManager.current_load node) = true.
Proof.
  intros a b m r. split; [intros; apply elem_of_map_to_list|].
  split; [by vm_compute|].
  destruct (selected_node_has_spare_capacity map_to_list
              (fun total (g : unit) => (total, g))
              (fun m node_id node => elem_of_map_to_list m node_id node)
              "local" 50 m tt) as [_ Hsome].
  apply Hsome. exists "b", b. split; by vm_compute.
Defined.


(** ** The node registry, regions and routes *)

Section RegistryFacts.
Import QuantumEdgeManager.

(** X17: [add_node] stores a node under its id unless the id is taken, in
    which case the registry stays as it is (the earlier node wins);
    [update_node_metrics] sets the load and the latency of a stored node and
    keeps its id, address, capacity and codecs, changes no other node, and
    does nothing for an id that is not stored. *)
Theorem registry_add_and_update (node : EdgeNode) (m : t) (node_id : string)
    (load lat : float) :
  (nodes_ m !! id node = None ->
   nodes_ (add_node node m) !! id node = Some node) /\
  (is_Some (nodes_ m !! id node) -> add_node node m = m) /\
  (forall other, other <> id node ->
     nodes_ (add_node node m) !! other = nodes_ m !! other) /\
  (forall n, nodes_ m !! node_id = Some n ->
     nodes_ (update_node_metrics node_id load lat m) !! node_id
     = Some (mkEdgeNode (id n) (address n) lat (capacity n) load
                        (supported_codecs n))) /\
  (forall other, other <> node_id ->
     nodes_ (update_node_metrics node_id load lat m) !! other
     = nodes_ m !! other) /\
  (nodes_ m !! node_id = None -> update_node_metrics node_id load lat m = m).
Proof.
  repeat split.
  - intros Hnone. unfold add_node. rewrite Hnone. simpl.
    apply lookup_insert_eq.
  - intros [n Hn]. unfold add_node. by rewrite Hn.
  - intros other Hother. unfold add_node.
    destruct (nodes_ m !! id node); [done|]. simpl.
    by rewrite lookup_insert_ne.
  - intros n Hn. unfold update_node_metrics. simpl.
    by rewrite lookup_alter_eq, Hn.
  - intros other Hother. unfold update_node_metrics. simpl.
    by rewrite lookup_alter_ne.
  - intros Hnone. unfold update_node_metrics. destruct m as [nodes].
    simpl in *. f_equal. apply map_eq. intros i.
    destruct (decide (i = node_id)) as [->|Hi].
    + by rewrite lookup_alter_eq, Hnone.
    + by rewrite lookup_alter_ne.
Qed.

Lemma index_zero_prefix (s1 s2 : string) :
  s1 <> EmptyString ->
  String.index 0 s1 s2 = Some 0%nat <-> String.prefix s1 s2 = true.
Proof.
  intros Hne. destruct s2 as [|c s2]; simpl.
  - destruct s1; [done|]. split; done.
  - destruct s1 as [|a s1]; [done|].
    destruct (if Ascii.ascii_dec a c then String.prefix s1 s2 else false)
      eqn:Hp; [done|].
    split; [|done].
    destruct (String.index 0 (String a s1) s2); done.
Qed.

(** X18: [geolocate_ip] answers "local" exactly for the addresses that
    begin with "192.168." or with "10.", and "us-east" for every other
    string; and the route chosen by [route_stream] does not depend on the
    client address or on the required codecs. *)
Theorem region_and_route (ip : string) :
  (geolocate_ip ip = "local"
   <-> String.prefix "192.168." ip = true \/ String.prefix "10." ip = true) /\
  (geolocate_ip ip <> "local" -> geolocate_ip ip = "us-east") /\
  (forall (iteration : gmap string EdgeNode -> list (string * EdgeNode))
          (Gen : Type) (uniform_real : float -> Gen -> float * Gen)
          (ip' : string) (required_bandwidth : float)
          (codecs codecs' : list string) (m : t) (gen : Gen),
     route_stream iteration uniform_real ip required_bandwidth codecs m gen
     = route_stream iteration uniform_real ip' required_bandwidth codecs' m gen).
Proof.
  split; [|split].
  - unfold geolocate_ip.
    rewrite <- !index_zero_prefix by done.
    destruct (bool_decide (String.index 0 "192.168." ip = Some 0%nat)) eqn:H1;
      destruct (bool_decide (String.index 0 "10." ip = Some 0%nat)) eqn:H2;
      simpl;
      try apply bool_decide_eq_true in H1; try apply bool_decide_eq_true in H2;
      try apply bool_decide_eq_false in H1; try apply bool_decide_eq_false in H2.
    + split; [by left | done].
    + split; [by left | done].
    + split; [by right | done].
    + split; [done | by intros [H|H]].
  - unfold geolocate_ip. by destruct (_ || _).
  - done.
Qed.

End RegistryFacts.

(** ** The connection table *)

Section PoolFacts.
Import ConnectionPool.

(** X19: a descriptor added to the table is found there, active, with the
    given client id and the time of the call; removing it again restores
    the table; adding a descriptor that is already present changes nothing
    (the earlier entry stays); removing an absent descriptor changes
    nothing. *)
Theorem pool_add_remove (now : Z) (fd : Z) (client_id : string) (p : t) :
  (connections_ p !! fd = None ->
   connections_ (add_connection now fd client_id p) !! fd
   = Some (mkConnection fd client_id true now) /\
   remove_connection fd (add_connection now fd client_id p) = p) /\
  (is_Some (connections_ p !! fd) -> add_connection now fd client_id p = p) /\
  (connections_ p !! fd = None -> remove_connection fd p = p) /\
  connections_ (remove_connection fd p) !! fd = None /\
  (forall other, other <> fd ->
     connections_ (add_connection now fd client_id p) !! other
     = connections_ p !! other /\
     connections_ (remove_connection fd p) !! other = connections_ p !! other).
Proof.
  split; [|split; [|split; [|split]]].
  - intros Hnone. unfold add_connection, remove_connection. rewrite Hnone.
    simpl. split; [apply lookup_insert_eq|].
    rewrite delete_insert_id by done. by destruct p.
  - intros [c Hc]. unfold add_connection. by rewrite Hc.
  - intros Hnone. unfold remove_connection. rewrite delete_id by done.
    by destruct p.
  - unfold remove_connection. simpl. apply lookup_delete_eq.
  - intros other Hother. split.
    + unfold add_connection. destruct (connections_ p !! fd); [done|].
      simpl. by rewrite lookup_insert_ne.
    + unfold remove_connection. simpl. by rewrite lookup_delete_ne.
Qed.

(** X20: [update_activity] stamps the entry of the descriptor with the
    time of the call and changes nothing else of it, leaves every other
    entry alone, and does nothing when the descriptor is not in the
    table. *)
Theorem pool_update_activity (now : Z) (fd : Z) (p : t) :
  (forall c, connections_ p !! fd = Some c ->
     connections_ (update_activity now fd p) !! fd
     = Some (mkConnection (ConnectionPool.fd c) (client_id c) (active c) now)) /\
  (forall other, other <> fd ->
     connections_ (update_activity now fd p) !! other
     = connections_ p !! other) /\
  (connections_ p !! fd = None -> update_activity now fd p = p) /\
  dom (connections_ (update_activity now fd p)) = dom (connections_ p).
Proof.
  split; [|split; [|split]].
  - intros c Hc. unfold update_activity. simpl.
    by rewrite lookup_alter_eq, Hc.
  - intros other Hother. unfold update_activity. simpl.
    by rewrite lookup_alter_ne.
  - intros Hnone. unfold update_activity. destruct p as [conns].
    simpl in *. f_equal. apply map_eq. intros i.
    destruct (decide (i = fd)) as [->|Hi].
    + by rewrite lookup_alter_eq, Hnone.
    + by rewrite lookup_alter_ne.
  - unfold update_activity. simpl. apply dom_alter_L.
Qed.

End PoolFacts.

(** ** Connection events *)

Section HandlerFacts.
Import QuantumStreamServer.
Context {Gen : Type} (dist : Gen -> Z * Gen).

Lemma cleanup_connection_spec (fd : Z) (s : t Gen) :
  cleanup_connection fd s
  = mk (io_core_ s)
       (ConnectionPool.remove_connection fd (connection_pool_ s))
       (gen_ s)
       (events_ s ++ [EpollCtlDel fd; Close fd]).
Proof.
  unfold cleanup_connection, emit. simpl. by rewrite <- app_assoc.
Qed.

(** X21: when a descriptor is reported readable together with an error or
    a hang-up and the [read] returns 0, the connection is torn down twice
    in the same call: [handle_connection_close] and then
    [handle_connection_error] each deregister the descriptor and call
    [close] on it. *)
Theorem hangup_after_end_of_file_closes_twice (now : Z) (r : ReadResult)
    (fd : Z) (events : Z) (s : t Gen) :
  Z.land events EPOLLIN <> 0 ->
  Z.land events (Z.lor EPOLLERR EPOLLHUP) <> 0 ->
  bytes_read r = 0 ->
  let s' := handle_connection_activity dist now r fd events s in
  events_ s'
  = events_ s ++ [Cout "Connection closed on fd " fd; EpollCtlDel fd; Close fd;
                  Cerr "Connection error on fd " fd; EpollCtlDel fd; Close fd] /\
  ConnectionPool.connections_ (connection_pool_ s') !! fd = None /\
  io_core_ s' = io_core_ s.
Proof.
  intros Hin Herr Hzero s'. unfold s', handle_connection_activity.
  destruct (Z.eqb_spec (Z.land events EPOLLIN) 0) as [|_]; [done|].
  destruct (Z.eqb_spec (Z.land events (Z.lor EPOLLERR EPOLLHUP)) 0) as [|_];
    [done|].
  cbn [negb]. unfold handle_write_event.
  assert (forall s0 : t Gen, handle_read_event dist fd r s0
                             = handle_connection_close fd s0) as Hread.
  { intros s0. unfold handle_read_event. rewrite Hzero. done. }
  rewrite Hread.
  destruct (negb (Z.land events EPOLLOUT =? 0));
    unfold handle_connection_error, handle_connection_close;
    rewrite !cleanup_connection_spec; unfold emit; simpl;
    rewrite <- !app_assoc; simpl;
    (split; [done|]); (split; [apply lookup_delete_eq | done]).
Qed.

(** X22: a readable descriptor whose [read] returns n > 0 bytes, with no
    error or hang-up reported, gets exactly those n bytes submitted to the
    core as one task; no system call is issued and the connection table
    only gets its time stamp.  When the [read] fails with [EAGAIN] nothing
    is submitted either. *)
Theorem readable_data_is_submitted (now : Z) (r : ReadResult)
    (fd : Z) (events : Z) (s : t Gen) :
  Z.land events EPOLLIN <> 0 ->
  Z.land events (Z.lor EPOLLERR EPOLLHUP) = 0 ->
  let s' := handle_connection_activity dist now r fd events s in
  let pool := ConnectionPool.update_activity now fd (connection_pool_ s) in
  (0 < bytes_read r ->
   s' = mk (QuantumIOCore.submit dist
              (ProcessVideoFrame (take (Z.to_nat (bytes_read r)) (buffer r)))
              (io_core_ s) (gen_ s)).1
           pool
           (QuantumIOCore.submit dist
              (ProcessVideoFrame (take (Z.to_nat (bytes_read r)) (buffer r)))
              (io_core_ s) (gen_ s)).2
           (events_ s)) /\
  (bytes_read r < 0 -> errno r = EAGAIN ->
   s' = mk (io_core_ s) pool (gen_ s) (events_ s)).
Proof.
  intros Hin Hnoerr s' pool. unfold s', handle_connection_activity.
  destruct (Z.eqb_spec (Z.land events EPOLLIN) 0) as [|_]; [done|].
  rewrite Hnoerr. cbn [negb Z.eqb]. unfold handle_write_event.
  split.
  - intros Hpos.
    assert (forall A (x : A), (if negb (Z.land events EPOLLOUT =? 0) then x else x) = x)
      as Hif by (intros; by destruct (negb _)).
    rewrite Hif. unfold handle_read_event.
    destruct (Z.ltb_spec 0 (bytes_read r)); [|lia].
    unfold process_received_data. simpl.
    by destruct (QuantumIOCore.submit dist _ _ _).
  - intros Hneg Herrno.
    assert (forall A (x : A), (if negb (Z.land events EPOLLOUT =? 0) then x else x) = x)
      as Hif by (intros; by destruct (negb _)).
    rewrite Hif. unfold handle_read_event.
    destruct (Z.ltb_spec 0 (bytes_read r)); [lia|].
    destruct (Z.eqb_spec (bytes_read r) 0); [lia|].
    rewrite Herrno. done.
Qed.

(** X23: whenever an error or a hang-up is reported for a descriptor, the
    call ends with the descriptor deregistered, closed and gone from the
    connection table, whatever else was reported and whatever the [read]
    returned. *)
Theorem error_event_removes_connection (now : Z) (r : ReadResult)
    (fd : Z) (events : Z) (s : t Gen) :
  Z.land events (Z.lor EPOLLERR EPOLLHUP) <> 0 ->
  let s' := handle_connection_activity dist now r fd events s in
  ConnectionPool.connections_ (connection_pool_ s') !! fd = None /\
  exists earlier,
    events_ s' = earlier ++ [Cerr "Connection error on fd " fd;
                             EpollCtlDel fd; Close fd].
Proof.
  intros Herr s'. unfold s', handle_connection_activity.
  destruct (Z.eqb_spec (Z.land events (Z.lor EPOLLERR EPOLLHUP)) 0) as [|_];
    [done|].
  cbn [negb]. unfold handle_connection_error.
  rewrite cleanup_connection_spec. unfold emit. simpl.
  split; [apply lookup_delete_eq|].
  eexists. rewrite <- app_assoc. simpl. reflexivity.
Qed.

End HandlerFacts.

(** Descriptor 7 reports [EPOLLIN | EPOLLHUP] and the [read] returns 0:
    [close(7)] is issued twice. *)
Lemma hangup_after_end_of_file_closes_twice_witness :
  let dist := fun g : nat => (0, S g) in
  let s := QuantumStreamServer.mk (QuantumIOCore.make 1)
             (ConnectionPool.add_connection 100 7 "client" ConnectionPool.make)
             0%nat [] in
  let s' := QuantumStreamServer.handle_connection_activity dist 200
              (QuantumStreamServer.mkRead 0 [] 0) 7 17 s in
  Z.land 17 QuantumStreamServer.EPOLLIN <> 0 /\
  Z.land 17 (Z.lor QuantumStreamServer.EPOLLERR QuantumStreamServer.EPOLLHUP)
  <> 0 /\
  QuantumStreamServer.events_ s'
  = [QuantumStreamServer.Cout "Connection closed on fd " 7;
     QuantumStreamServer.EpollCtlDel 7; QuantumStreamServer.Close 7;
     QuantumStreamServer.Cerr "Connection error on fd " 7;
     QuantumStreamServer.EpollCtlDel 7; QuantumStreamServer.Close 7].
Proof.
  intros dist s s'. split; [by vm_compute|]. split; [by vm_compute|].
  destruct (hangup_after_end_of_file_closes_twice dist 200
              (QuantumStreamServer.mkRead 0 [] 0) 7 17 s)
    as (Hev & _); [by vm_compute | by vm_compute | done |].
  exact Hev.
Defined.

(** Descriptor 7 is readable and the [read] returns 3 bytes of a buffer
    holding more: the task carries those 3 bytes. *)
Lemma readable_data_is_submitted_witness :
  let dist := fun g : nat => (0, S g) in
  let s := QuantumStreamServer.mk (QuantumIOCore.make 1)
             (ConnectionPool.add_connection 100 7 "client" ConnectionPool.make)
             0%nat [] in
  let r := QuantumStreamServer.mkRead 3 [x01; x02; x03; x04] 0 in
  let s' := QuantumStreamServer.handle_connection_activity dist 200 r 7 1 s in
  Z.land 1 QuantumStreamServer.EPOLLIN <> 0 /\
  Z.land 1 (Z.lor QuantumStreamServer.EPOLLERR QuantumStreamServer.EPOLLHUP)
  = 0 /\
  0 < QuantumStreamServer.bytes_read r /\
  QuantumIOCore.task_queues_ (QuantumStreamServer.io_core_ s')
  = [[QuantumStreamServer.ProcessVideoFrame [x01; x02; x03]]] /\
  QuantumStreamServer.events_ s' = [].
Proof.
  intros dist s r s'. split; [by vm_compute|]. split; [by vm_compute|].
  split; [by vm_compute|].
  destruct (readable_data_is_submitted dist 200 r 7 1 s) as (Hdata & _);
    [by vm_compute | by vm_compute |].
  unfold s'. rewrite Hdata by (by vm_compute). by vm_compute.
Defined.

(** Descriptor 7 reports [EPOLLHUP] alone. *)
Lemma error_event_removes_connection_witness :
  let dist := fun g : nat => (0, S g) in
  let s := QuantumStreamServer.mk (QuantumIOCore.make 1)
             (ConnectionPool.add_connection 100 7 "client" ConnectionPool.make)
             0%nat [] in
  let s' := QuantumStreamServer.handle_connection_activity dist 200
              (QuantumStreamServer.mkRead 0 [] 0) 7 16 s in
  Z.land 16 (Z.lor QuantumStreamServer.EPOLLERR QuantumStreamServer.EPOLLHUP)
  <> 0 /\
  ConnectionPool.connections_
    (ConnectionPool.add_connection 100 7 "client" ConnectionPool.make) !! 7
  = Some (ConnectionPool.mkConnection 7 "client" true 100) /\
  ConnectionPool.connections_ (QuantumStreamServer.connection_pool_ s') !! 7
  = None.
Proof.
  intros dist s s'. split; [by vm_compute|]. split; [by vm_compute|].
  destruct (error_event_removes_connection dist 200
              (QuantumStreamServer.mkRead 0 [] 0) 7 16 s)
    as (Hgone & _); [by vm_compute|].
  exact Hgone.
Defined.
